(** * Token-budget truncation of a chat history (CopilotKit)

    Shallow embedding of [limitMessagesToTokenCount] and its helpers
    ([maxTokensForOpenAIModel], [countToolsTokens], [countMessageTokens],
    [countTokens]) together with the properties the specification states
    about them.

    Modelling conventions.
    - A JavaScript [number] holding a token count or a budget is a [Z]:
      every value the algorithm computes is an integer far below 2^53, where
      double arithmetic is exact.  The optional argument [maxTokens?] is an
      [option Z]; [None] is [undefined].
    - [maxTokensByModel] is the object literal of the source: the finite
      map of its own properties.  A read of it under the name of a member
      that it inherits from [Object.prototype] gives that member
      ([readProperty], [maxTokensForOpenAIModel_js], [resolveMaxTokens_js]);
      the arithmetic of the function is modelled for budgets that are
      numbers, which [maxTokensForOpenAIModel] and [resolveMaxTokens] give.
    - [tiktoken] and [JSON.stringify] are not code of this package: they are
      interfaces ([Tokenizer], [Serializer]) and every theorem holds for all
      their implementations.  [encoding_for_model] may throw, as the
      [try]/[catch] of [countTokens] expects; [encode] is taken to return.
    - [throw] is the left injection of a sum; the calls of [countTokens] are
      recorded, in call order, in a ghost trace that the computation threads
      along, so that "is (not) counted" is a statement about a run. *)

From Stdlib Require Import ZArith Lia.
From stdpp Require Import base option list strings gmap.

Local Open Scope string_scope.
Local Open Scope list_scope.
Local Open Scope Z_scope.

(** ** Data model *)

(** The [content] field of a message as the code reads it through
    [message.content || ""]. *)
Inductive Content : Type :=
| undefined
| null
| text (s : string).

Record Message : Type := mkMessage {
  role : string;
  content : Content
}.

Global Instance Content_eq_dec : EqDecision Content.
Proof. solve_decision. Defined.

Global Instance Message_eq_dec : EqDecision Message.
Proof. solve_decision. Defined.

(** The three ways the function leaves by an exception: the two [throw]
    statements of [limitMessagesToTokenCount], and [encoding_for_model]
    rejecting the fallback model inside the [catch] block of [countTokens]. *)
Inductive Error : Type :=
| TooManyTokensInFunctionDefinitions (toolsNumTokens maxTokens : Z)
| NotEnoughTokensForSystemMessage
| UnknownModel (model : string).

(** ** The external interfaces *)

(** [tiktoken]: [encoding_for_model] throws on an identifier it does not
    know ([None]); an encoder turns a text into its tokens. *)
Class Tokenizer : Type := {
  Tiktoken : Type;
  encoding_for_model : string → option Tiktoken;
  encode : Tiktoken → string → list N
}.

(** [JSON.stringify] on an array of tool definitions. *)
Class Serializer (Tool : Type) : Type :=
  JSON_stringify : list Tool → string.

(** ** Computations that may throw and that log the tokenizer calls *)

(** One event per call [countTokens(model, text)]. *)
Definition Call : Type := string * string.
Definition Trace : Type := list Call.

Definition M (A : Type) : Type := Trace → (Error + A) * Trace.

Global Instance M_ret : MRet M := λ A x tr, (inr x, tr).

Definition throw {A} (e : Error) : M A := λ tr, (inl e, tr).

Global Instance M_bind : MBind M := λ A B k m tr,
  match m tr with
  | (inl e, tr') => (inl e, tr')
  | (inr x, tr') => k x tr'
  end.

Definition tell (c : Call) : M unit := λ tr, (inr tt, tr ++ [c]).

Definition run {A} (m : M A) : (Error + A) * Trace := m [].

(** ** The limit table *)

Definition DEFAULT_MAX_TOKENS : Z := 128000.

Definition maxTokensByModel : gmap string Z :=
  list_to_map [
    (* GPT-4 *)
    ("gpt-4o", 128000);
    ("gpt-4o-2024-05-13", 128000);
    ("gpt-4-turbo", 128000);
    ("gpt-4-turbo-2024-04-09", 128000);
    ("gpt-4-0125-preview", 128000);
    ("gpt-4-turbo-preview", 128000);
    ("gpt-4-1106-preview", 128000);
    ("gpt-4-vision-preview", 128000);
    ("gpt-4-1106-vision-preview", 128000);
    ("gpt-4-32k", 32768);
    ("gpt-4-32k-0613", 32768);
    ("gpt-4-32k-0314", 32768);
    ("gpt-4", 8192);
    ("gpt-4-0613", 8192);
    ("gpt-4-0314", 8192);
    (* GPT-3.5 *)
    ("gpt-3.5-turbo-0125", 16385);
    ("gpt-3.5-turbo", 16385);
    ("gpt-3.5-turbo-1106", 16385);
    ("gpt-3.5-turbo-instruct", 4096);
    ("gpt-3.5-turbo-16k", 16385);
    ("gpt-3.5-turbo-0613", 4096);
    ("gpt-3.5-turbo-16k-0613", 16385);
    ("gpt-3.5-turbo-0301", 4097)
  ].

(** [x || d] on an optional number: [undefined] and [0] are falsy. *)
Definition or_else (x : option Z) (d : Z) : Z :=
  match x with
  | Some n => if n =? 0 then d else n
  | None => d
  end.

Definition maxTokensForOpenAIModel (model : string) : Z :=
  or_else (maxTokensByModel !! model) DEFAULT_MAX_TOKENS.

(** *** The table as the plain object it is

    [maxTokensByModel[model]] reads a plain object: a key that is not its
    own is looked up in [Object.prototype], whose members are functions, or
    [Object.prototype] itself under ["__proto__"].  Such a member is truthy,
    so [||] keeps it and the function returns it in place of a number. *)

(** The names that a plain object inherits from [Object.prototype]. *)
Definition objectPrototypeMembers : list string :=
  ["constructor"; "__defineGetter__"; "__defineSetter__"; "hasOwnProperty";
   "__lookupGetter__"; "__lookupSetter__"; "isPrototypeOf";
   "propertyIsEnumerable"; "toString"; "valueOf"; "__proto__";
   "toLocaleString"].

Inductive PropertyRead (V : Type) : Type :=
| ownProperty (v : V)
| inheritedMember (key : string)
| undefinedProperty.
Arguments ownProperty {V}.
Arguments inheritedMember {V}.
Arguments undefinedProperty {V}.

(** [object[key]] on a plain object with the own properties [object]. *)
Definition readProperty {V} (object : gmap string V) (key : string)
    : PropertyRead V :=
  match object !! key with
  | Some v => ownProperty v
  | None =>
      if bool_decide (key ∈ objectPrototypeMembers) then inheritedMember key
      else undefinedProperty
  end.

(** What [maxTokensForOpenAIModel] and line 9 can give: a number, or the
    member of [Object.prototype] of that name. *)
Inductive Limit : Type :=
| number (n : Z)
| member (key : string).

(** [maxTokensByModel[model] || DEFAULT_MAX_TOKENS] as the value it is;
    [maxTokensForOpenAIModel] above is its number, for every identifier
    that is not the name of an inherited member. *)
Definition maxTokensForOpenAIModel_js (model : string) : Limit :=
  match readProperty maxTokensByModel model with
  | ownProperty n => number (if n =? 0 then DEFAULT_MAX_TOKENS else n)
  | inheritedMember key => member key
  | undefinedProperty => number DEFAULT_MAX_TOKENS
  end.

(** [maxTokens ||= maxTokensForOpenAIModel(model)] as the value it is; when
    it is a number, it is the one that [resolveMaxTokens] gives. *)
Definition resolveMaxTokens_js (model : string) (maxTokens : option Z)
    : Limit :=
  match maxTokens with
  | Some n => if n =? 0 then maxTokensForOpenAIModel_js model else number n
  | None => maxTokensForOpenAIModel_js model
  end.

(** [message.content || ""]: the empty string is falsy as well. *)
Definition content_or_empty (c : Content) : string :=
  match c with
  | text s => s
  | undefined | null => ""
  end.

Definition is_system (message : Message) : bool :=
  String.eqb (role message) "system".

(** The locals of [limitMessagesToTokenCount] that its second loop
    updates. *)
Record Locals : Type := mkLocals {
  maxTokens : Z;
  cutoff : bool;
  result : list Message
}.

(** ** The functions of the source *)

Section Source.
Context {Tk : Tokenizer} {Tool : Type} {Ser : Serializer Tool}.

Definition countTokens (model text : string) : M Z :=
  _ ← tell (model, text);
  enc ← match encoding_for_model model with
        | Some enc => mret enc
        | None =>
            match encoding_for_model "gpt-4o" with
            | Some enc => mret enc
            | None => throw (UnknownModel "gpt-4o")
            end
        end;
  mret (Z.of_nat (length (encode enc text))).

Definition countMessageTokens (model : string) (message : Message) : M Z :=
  countTokens model (content_or_empty (content message)).

Definition countToolsTokens (model : string) (tools : list Tool) : M Z :=
  match tools with
  | [] => mret 0
  | _ :: _ =>
      let json := JSON_stringify tools in
      countTokens model json
  end.

(** First loop: the reservation for the system messages.  The argument
    and the value are the local [maxTokens]. *)
Fixpoint reserveSystem (model : string) (messages : list Message)
    (maxTokens : Z) : M Z :=
  match messages with
  | [] => mret maxTokens
  | message :: rest =>
      if is_system message then
        numTokens ← countMessageTokens model message;
        let maxTokens := maxTokens - numTokens in
        if maxTokens <? 0 then throw NotEnoughTokensForSystemMessage
        else reserveSystem model rest maxTokens
      else reserveSystem model rest maxTokens
  end.

(** One iteration of the second loop; [result.unshift] is a cons. *)
Definition selectStep (model : string) (st : Locals) (message : Message)
    : M Locals :=
  if is_system message then
    mret (mkLocals (maxTokens st) (cutoff st) (message :: result st))
  else if cutoff st then
    mret st
  else
    numTokens ← countMessageTokens model message;
    if maxTokens st <? numTokens then
      mret (mkLocals (maxTokens st) true (result st))
    else
      mret (mkLocals (maxTokens st - numTokens) (cutoff st)
             (message :: result st)).

Fixpoint selectLoop (model : string) (reversedMessages : list Message)
    (st : Locals) : M Locals :=
  match reversedMessages with
  | [] => mret st
  | message :: rest =>
      st' ← selectStep model st message;
      selectLoop model rest st'
  end.

(** [maxTokens ||= maxTokensForOpenAIModel(model)]. *)
Definition resolveMaxTokens (model : string) (maxTokens : option Z) : Z :=
  or_else maxTokens (maxTokensForOpenAIModel model).

(** The body of [limitMessagesToTokenCount] up to the [return], giving
    the locals at that point. *)
Definition limitMessagesToTokenCount_locals (messages : list Message)
    (tools : list Tool) (model : string) (maxTokens : option Z) : M Locals :=
  let maxTokens := resolveMaxTokens model maxTokens in
  toolsNumTokens ← countToolsTokens model tools;
  if toolsNumTokens >? maxTokens then
    throw (TooManyTokensInFunctionDefinitions toolsNumTokens maxTokens)
  else
    let maxTokens := maxTokens - toolsNumTokens in
    maxTokens ← reserveSystem model messages maxTokens;
    selectLoop model (reverse messages) (mkLocals maxTokens false []).

Definition limitMessagesToTokenCount (messages : list Message)
    (tools : list Tool) (model : string) (maxTokens : option Z)
    : M (list Message) :=
  st ← limitMessagesToTokenCount_locals messages tools model maxTokens;
  mret (result st).

End Source.

(** ** Vocabulary of the specification *)

Definition systemMessages (l : list Message) : list Message :=
  filter (λ m, is_system m = true) l.

(** The messages whose role is not ["system"]. *)
Definition chatMessages (l : list Message) : list Message :=
  filter (λ m, is_system m = false) l.

Definition nonempty {A} (l : list A) : bool :=
  match l with
  | [] => false
  | _ :: _ => true
  end.

Section Vocabulary.
Context {Tk : Tokenizer} {Tool : Type} {Ser : Serializer Tool}.

(** The encoder that [countTokens] ends up with, if any. *)
Definition resolveEncoding (model : string) : option Tiktoken :=
  match encoding_for_model model with
  | Some enc => Some enc
  | None => encoding_for_model "gpt-4o"
  end.

Definition tokensIn (enc : Tiktoken) (s : string) : Z :=
  Z.of_nat (length (encode enc s)).

Definition cost (enc : Tiktoken) (m : Message) : Z :=
  tokensIn enc (content_or_empty (content m)).

Definition totalCost (enc : Tiktoken) (l : list Message) : Z :=
  foldr (λ m acc, cost enc m + acc) 0 l.

(** What the tool collection is charged: one count of the one
    serialization, nothing for the empty collection. *)
Definition toolsCost (enc : Tiktoken) (tools : list Tool) : Z :=
  match tools with
  | [] => 0
  | _ :: _ => tokensIn enc (JSON_stringify tools)
  end.

Definition toolsCalls (model : string) (tools : list Tool) : Trace :=
  match tools with
  | [] => []
  | _ :: _ => [(model, JSON_stringify tools)]
  end.

Definition messageCall (model : string) (m : Message) : Call :=
  (model, content_or_empty (content m)).

(** The call made on the message at which the second loop stops, if there
    is one: [l] is read newest first. *)
Definition failingCall (model : string) (l : list Message) : Trace :=
  match l with
  | [] => []
  | d :: _ => [messageCall model d]
  end.

End Vocabulary.

(** ** A small tokenizer and serializer to run the functions on *)

(** One token per character. *)
Fixpoint chars (s : string) : list N :=
  match s with
  | EmptyString => []
  | String a rest => Ascii.N_of_ascii a :: chars rest
  end.

(** One token per pair of characters. *)
Fixpoint pairs (s : string) : list N :=
  match s with
  | EmptyString => []
  | String a EmptyString => [Ascii.N_of_ascii a]
  | String a (String b rest) =>
      (256 * Ascii.N_of_ascii a + Ascii.N_of_ascii b)%N :: pairs rest
  end.

(** A registry that knows two identifiers, one of them the fallback. *)
Definition demoTokenizer : Tokenizer := {|
  Tiktoken := string → list N;
  encoding_for_model model :=
    if String.eqb model "gpt-4o" then Some chars
    else if String.eqb model "text-davinci-003" then Some pairs
    else None;
  encode enc s := enc s
|}.

(** A registry that knows no identifier at all. *)
Definition emptyTokenizer : Tokenizer := {|
  Tiktoken := string → list N;
  encoding_for_model model := None;
  encode enc s := enc s
|}.

(** Tools given by their names, serialized as a JSON array of strings. *)
Definition quoted (t : string) : string :=
  let q := String (Ascii.ascii_of_nat 34) EmptyString in q +:+ t +:+ q.

Definition demoSerializer : Serializer string :=
  λ tools, "[" +:+ String.concat "," (map quoted tools) +:+ "]".

(** The conversation of the scenarios of the specification: a system
    prompt of 5 tokens and three turns of 10, 10 and 5 tokens under the
    one-token-per-character encoder. *)
Definition msgS : Message := mkMessage "system" (text "Be ok").
Definition msgA : Message := mkMessage "user" (text "AAAAAAAAAA").
Definition msgB : Message := mkMessage "assistant" (text "BBBBBBBBBB").
Definition msgC : Message := mkMessage "user" (text "CCCCC").
Definition conversation : list Message := [msgS; msgA; msgB; msgC].

(** The calls of [countTokens] when [conversation] is cut to 12 tokens. *)
Definition callsAt12 : Trace :=
  [("gpt-4", "Be ok"); ("gpt-4", "CCCCC"); ("gpt-4", "BBBBBBBBBB")].

(** ** Entry points and their tool definitions (copilot-provider.tsx)

    The objects that the source uses as maps ([parameters],
    [entrypointsByFunctionName]) are plain objects: finite maps of their
    own properties, with a prototype.  An assignment under ["__proto__"]
    adds no own property: it sets the prototype.  A read of a name that is
    not an own property finds the members of [Object.prototype].
    What an annotation carries beside [name] and [required], what an entry
    point runs, and the values that [JSON.parse] gives are not declared in
    this package: they are type parameters and an interface. *)

(** An element of [argumentAnnotations], as the destructuring
    [{ name, required, ...forwardedArgs }] reads it. *)
Record AnnotatedFunctionArgument (Forwarded : Type) : Type := mkArgument {
  arg_name : string;
  arg_required : bool;
  arg_forwardedArgs : Forwarded
}.
Arguments mkArgument {Forwarded}.
Arguments arg_name {Forwarded}.
Arguments arg_required {Forwarded}.
Arguments arg_forwardedArgs {Forwarded}.

Record AnnotatedFunction (Forwarded Implementation : Type) : Type :=
  mkAnnotatedFunction {
    fn_name : string;
    fn_description : string;
    argumentAnnotations : list (AnnotatedFunctionArgument Forwarded);
    implementation : Implementation
  }.
Arguments mkAnnotatedFunction {Forwarded Implementation}.
Arguments fn_name {Forwarded Implementation}.
Arguments fn_description {Forwarded Implementation}.
Arguments argumentAnnotations {Forwarded Implementation}.
Arguments implementation {Forwarded Implementation}.

(** The [parameters] field of a [ChatCompletionCreateParams.Function]. *)
Record FunctionParameters (Forwarded : Type) : Type := mkFunctionParameters {
  schema_type : string;
  (* the own properties of the [properties] object *)
  properties : gmap string Forwarded;
  (* its prototype, when an assignment under ["__proto__"] has set it *)
  propertiesPrototype : option Forwarded;
  required : list string
}.
Arguments mkFunctionParameters {Forwarded}.
Arguments schema_type {Forwarded}.
Arguments properties {Forwarded}.
Arguments propertiesPrototype {Forwarded}.
Arguments required {Forwarded}.

Record ChatCompletionFunction (Forwarded : Type) : Type :=
  mkChatCompletionFunction {
    ccf_name : string;
    ccf_description : string;
    ccf_parameters : FunctionParameters Forwarded
  }.
Arguments mkChatCompletionFunction {Forwarded}.
Arguments ccf_name {Forwarded}.
Arguments ccf_description {Forwarded}.
Arguments ccf_parameters {Forwarded}.

(** The [functionCall] that the handler receives; both fields are
    optional. *)
Record FunctionCall : Type := mkFunctionCall {
  call_name : option string;
  call_arguments : option string
}.

(** [JSON.parse] may throw ([None]); reading a property of what it gave may
    throw as well (on [null]); [emptyArguments] is the array literal that
    the handler starts from. *)
Class ArgumentsParser (Parsed Value : Type) : Type := {
  JSON_parse : string → option Parsed;
  emptyArguments : Parsed;
  getProperty : Parsed → string → option Value
}.

(** What a call of the handler does, up to the call of the
    implementation. *)
Inductive HandlerOutcome (Forwarded Implementation Value : Type) : Type :=
| NotHandled
| Threw
| Invoked (entryPointFunction : AnnotatedFunction Forwarded Implementation)
    (paramsInCorrectOrder : list Value).
Arguments NotHandled {Forwarded Implementation Value}.
Arguments Threw {Forwarded Implementation Value}.
Arguments Invoked {Forwarded Implementation Value}.

Section EntryPoints.
Context {Forwarded Implementation Parsed Value : Type}.
Context {Parser : ArgumentsParser Parsed Value}.

Definition annotatedFunctionToChatCompletionFunction
    (annotatedFunction : AnnotatedFunction Forwarded Implementation)
    : ChatCompletionFunction Forwarded :=
  let parameters :=
    foldl (λ parameters arg,
             if String.eqb (arg_name arg) "__proto__"
             then (parameters.1, Some (arg_forwardedArgs arg))
             else (<[arg_name arg := arg_forwardedArgs arg]> parameters.1,
                   parameters.2))
      ((∅ : gmap string Forwarded), None)
      (argumentAnnotations annotatedFunction) in
  let requiredParameterNames :=
    foldl (λ names arg,
             if arg_required arg then names ++ [arg_name arg] else names)
      [] (argumentAnnotations annotatedFunction) in
  mkChatCompletionFunction (fn_name annotatedFunction)
    (fn_description annotatedFunction)
    (mkFunctionParameters "object" parameters.1 parameters.2
       requiredParameterNames).

Definition entryPointsToChatCompletionFunctions
    (entryPoints : list (AnnotatedFunction Forwarded Implementation))
    : list (ChatCompletionFunction Forwarded) :=
  annotatedFunctionToChatCompletionFunction <$> entryPoints.

(** [functionCall.name || ""]. *)
Definition name_or_empty (name : option string) : string :=
  match name with
  | Some s => s
  | None => ""
  end.

(** The handler that [entryPointsToFunctionCallHandler] returns, applied to
    a function call, up to the awaited call of the implementation; it does
    not read the chat messages it is given.

    The index is read as a plain object.  Under a name that no entry point
    has and that [Object.prototype] has, the read gives that member: it is
    truthy, the arguments are parsed, and the loop over its
    [argumentAnnotations], which it has not, throws.  An entry point named
    ["__proto__"] becomes the prototype of the index and is what a read
    under ["__proto__"] gives, as the map of entry points by name does;
    what other names then inherit from that entry point is outside the
    model, and the theorems on names that no entry point has assume that
    there is no such entry point. *)
Definition entryPointsToFunctionCallHandler {ChatMessage : Type}
    (entryPoints : list (AnnotatedFunction Forwarded Implementation))
    (_chatMessages : list ChatMessage) (functionCall : FunctionCall)
    : HandlerOutcome Forwarded Implementation Value :=
  let entrypointsByFunctionName :=
    foldl (λ byName entryPoint, <[fn_name entryPoint := entryPoint]> byName)
      (∅ : gmap string (AnnotatedFunction Forwarded Implementation))
      entryPoints in
  match entrypointsByFunctionName !! name_or_empty (call_name functionCall) with
  | Some entryPointFunction =>
      let parsedFunctionCallArguments :=
        match call_arguments functionCall with
        | Some arguments =>
            if String.eqb arguments "" then Some emptyArguments
            else JSON_parse arguments
        | None => Some emptyArguments
        end in
      match parsedFunctionCallArguments with
      | Some parsed =>
          match mapM (λ arg, getProperty parsed (arg_name arg))
                  (argumentAnnotations entryPointFunction) with
          | Some paramsInCorrectOrder =>
              Invoked entryPointFunction paramsInCorrectOrder
          | None => Threw
          end
      | None => Threw
      end
  | None =>
      if bool_decide (name_or_empty (call_name functionCall)
                        ∈ objectPrototypeMembers)
      then Threw
      else NotHandled
  end.

End EntryPoints.

(** A parser to run the handler on: the arguments string names the one
    property that is set, ["!"] is malformed, and the value of a property
    is whether it is set. *)
Definition demoParser : ArgumentsParser (list string) bool := {|
  JSON_parse s := if String.eqb s "!" then None else Some [s];
  emptyArguments := [];
  getProperty parsed name := Some (bool_decide (name ∈ parsed))
|}.

Definition demoEntryPoint (name : string) (impl : nat)
    : AnnotatedFunction string nat :=
  mkAnnotatedFunction name "an entry point"
    [mkArgument "city" true "string"; mkArgument "unit" false "string"] impl.

(** The second loop stopped between [older] and [newer] with [B] tokens to
    spend: nothing is older, or the newest of the older messages is a
    non-system message that costs more than what [newer] left of [B]. *)
Definition stopsAt `{Tk : Tokenizer} (enc : Tiktoken) (B : Z)
    (older newer : list Message) : Prop :=
  older = [] ∨
  ∃ o d, older = o ++ [d] ∧ is_system d = false ∧
    B - totalCost enc (chatMessages newer) < cost enc d.

(** The number of calls of the tokenizer that the tools can take. *)
Definition toolsCallCount {Tool} (tools : list Tool) : nat :=
  match tools with
  | [] => 0
  | _ :: _ => 1
  end.

(** ** Lemmas on the limit table and the budget *)





(** No key of the table is the name of an inherited member. *)
Lemma inherited_names_not_listed :
  Forall (λ key, maxTokensByModel !! key = None) objectPrototypeMembers.
Proof. apply (bool_decide_unpack _). vm_compute. exact I. Qed.

Lemma readProperty_table_inherited model :
  model ∈ objectPrototypeMembers →
  readProperty maxTokensByModel model = inheritedMember model.
Proof.
  intros Hin. unfold readProperty.
  rewrite (proj1 (Forall_forall _ _) inherited_names_not_listed model Hin).
  by rewrite bool_decide_eq_true_2.
Qed.

(** Off the inherited names the value is the number that
    [maxTokensForOpenAIModel] gives. *)
Lemma maxTokensForOpenAIModel_js_number model :
  model ∉ objectPrototypeMembers →
  maxTokensForOpenAIModel_js model = number (maxTokensForOpenAIModel model).
Proof.
  intros Hnot. unfold maxTokensForOpenAIModel_js, readProperty.
  unfold maxTokensForOpenAIModel, or_else.
  destruct (maxTokensByModel !! model) as [n|]; [done|].
  by rewrite bool_decide_eq_false_2.
Qed.

Lemma maxTokensForOpenAIModel_js_inv model n :
  maxTokensForOpenAIModel_js model = number n →
  maxTokensForOpenAIModel model = n.
Proof.
  unfold maxTokensForOpenAIModel_js, readProperty.
  unfold maxTokensForOpenAIModel, or_else.
  destruct (maxTokensByModel !! model) as [k|]; [by intros [= <-]|].
  destruct (bool_decide _); [done|by intros [= <-]].
Qed.

(** When line 9 gives a number, it is the resolved budget. *)
Lemma resolveMaxTokens_js_inv model maxTokensArg n :
  resolveMaxTokens_js model maxTokensArg = number n →
  resolveMaxTokens model maxTokensArg = n.
Proof.
  unfold resolveMaxTokens_js, resolveMaxTokens, or_else.
  destruct maxTokensArg as [k|].
  - destruct (k =? 0); [apply maxTokensForOpenAIModel_js_inv|by intros [= <-]].
  - apply maxTokensForOpenAIModel_js_inv.
Qed.

(** ** Lemmas on the helper functions and the two loops *)

Ltac unfold_M := unfold mbind, M_bind, mret, M_ret, throw, tell in *.

Section Loops.
Context {Tk : Tokenizer} {Tool : Type} {Ser : Serializer Tool}.

Lemma countTokens_run model s tr :
  countTokens model s tr =
  (match resolveEncoding model with
   | Some enc => inr (tokensIn enc s)
   | None => inl (UnknownModel "gpt-4o")
   end, tr ++ [(model, s)]).
Proof.
  unfold countTokens, resolveEncoding, tokensIn. unfold_M.
  destruct (encoding_for_model model); [done|].
  by destruct (encoding_for_model "gpt-4o").
Qed.

Lemma countMessageTokens_run model m tr :
  countMessageTokens model m tr =
  (match resolveEncoding model with
   | Some enc => inr (cost enc m)
   | None => inl (UnknownModel "gpt-4o")
   end, tr ++ [messageCall model m]).
Proof. apply countTokens_run. Qed.

Lemma countToolsTokens_run model enc (tools : list Tool) tr :
  resolveEncoding model = Some enc →
  countToolsTokens model tools tr =
  (inr (toolsCost enc tools), tr ++ toolsCalls model tools).
Proof.
  intros Hres. destruct tools as [|t tools]; simpl.
  - unfold_M. by rewrite app_nil_r.
  - by rewrite countTokens_run, Hres.
Qed.

Lemma tokensIn_nonneg enc s : 0 ≤ tokensIn enc s.
Proof. unfold tokensIn. lia. Qed.

Lemma cost_nonneg enc m : 0 ≤ cost enc m.
Proof. apply tokensIn_nonneg. Qed.

Lemma totalCost_nonneg enc l : 0 ≤ totalCost enc l.
Proof.
  induction l as [|m l IH]; simpl; [lia|].
  pose proof (cost_nonneg enc m). lia.
Qed.

Lemma toolsCost_nonneg enc (tools : list Tool) : 0 ≤ toolsCost enc tools.
Proof. destruct tools; simpl; [lia | apply tokensIn_nonneg]. Qed.

Lemma totalCost_app enc l1 l2 :
  totalCost enc (l1 ++ l2) = totalCost enc l1 + totalCost enc l2.
Proof. induction l1 as [|m l1 IH]; simpl; lia. Qed.

Lemma totalCost_reverse enc l : totalCost enc (reverse l) = totalCost enc l.
Proof.
  induction l as [|m l IH]; [done|].
  rewrite reverse_cons, totalCost_app, IH. simpl. lia.
Qed.

Lemma systemMessages_cons_system m l :
  is_system m = true → systemMessages (m :: l) = m :: systemMessages l.
Proof. intros H. unfold systemMessages. by rewrite filter_cons_True. Qed.

Lemma systemMessages_cons_chat m l :
  is_system m = false → systemMessages (m :: l) = systemMessages l.
Proof.
  intros H. unfold systemMessages. rewrite filter_cons_False; [done|].
  by rewrite H.
Qed.

Lemma chatMessages_cons_chat m l :
  is_system m = false → chatMessages (m :: l) = m :: chatMessages l.
Proof. intros H. unfold chatMessages. by rewrite filter_cons_True. Qed.

Lemma chatMessages_cons_system m l :
  is_system m = true → chatMessages (m :: l) = chatMessages l.
Proof.
  intros H. unfold chatMessages. rewrite filter_cons_False; [done|].
  by rewrite H.
Qed.

(** *** The second loop *)

(** After the cutoff the loop only collects the system messages: the
    budget stays, nothing is counted. *)
Lemma selectLoop_cut model l st tr :
  cutoff st = true →
  selectLoop model l st tr =
  (inr (mkLocals (maxTokens st) true
          (reverse (systemMessages l) ++ result st)), tr).
Proof.
  revert st. induction l as [|m l IH]; intros st Hcut.
  - destruct st; simpl in *. by subst.
  - simpl. unfold selectStep. destruct (is_system m) eqn:Hm.
    + unfold_M. rewrite IH by done. simpl.
      rewrite systemMessages_cons_system, reverse_cons by done.
      by rewrite <- app_assoc.
    + rewrite Hcut. unfold_M. rewrite IH by done.
      by rewrite systemMessages_cons_chat.
Qed.

(** A run of the loop that returns splits its input (newest first) at
    the message on which it stopped. *)
Lemma selectLoop_returns model l st tr st' tr' :
  cutoff st = false →
  selectLoop model l st tr = (inr st', tr') →
  ∃ l1 l2, l = l1 ++ l2 ∧
    result st' = reverse (l1 ++ systemMessages l2) ++ result st ∧
    (l2 = [] ∨ ∃ d l2', l2 = d :: l2' ∧ is_system d = false).
Proof.
  revert st tr. induction l as [|m l IH]; intros st tr Hcut Hrun.
  - exists [], []. simpl in Hrun. unfold_M. simplify_eq. auto.
  - simpl in Hrun. unfold selectStep in Hrun.
    destruct (is_system m) eqn:Hm.
    + unfold_M. apply IH in Hrun as (l1 & l2 & -> & Hres & Hstop); [|done].
      exists (m :: l1), l2. split_and!; [done| |done].
      rewrite Hres. simpl. rewrite reverse_cons. by rewrite <- app_assoc.
    + rewrite Hcut in Hrun. unfold_M.
      destruct (countMessageTokens model m tr) as [[e|n] tr1]; [done|].
      destruct (maxTokens st <? n).
      * rewrite selectLoop_cut in Hrun by done. simplify_eq. simpl.
        exists [], (m :: l). split_and!; [done| |eauto].
        by rewrite systemMessages_cons_chat.
      * apply IH in Hrun as (l1 & l2 & -> & Hres & Hstop); [|done].
        exists (m :: l1), l2. split_and!; [done| |done].
        rewrite Hres. simpl. rewrite reverse_cons. by rewrite <- app_assoc.
Qed.

(** With an encoder at hand the loop always returns, and the split
    is the greedy one. *)
Lemma selectLoop_resolved model enc l st tr :
  resolveEncoding model = Some enc →
  cutoff st = false →
  ∃ l1 l2, l = l1 ++ l2 ∧
    selectLoop model l st tr =
      (inr (mkLocals (maxTokens st - totalCost enc (chatMessages l1))
              (nonempty l2)
              (reverse (l1 ++ systemMessages l2) ++ result st)),
       tr ++ map (messageCall model) (chatMessages l1)
          ++ failingCall model l2) ∧
    (0 ≤ maxTokens st → totalCost enc (chatMessages l1) ≤ maxTokens st) ∧
    (l2 = [] ∨ ∃ d l2', l2 = d :: l2' ∧ is_system d = false ∧
       maxTokens st - totalCost enc (chatMessages l1) < cost enc d).
Proof.
  intros Hres. revert st tr.
  induction l as [|m l IH]; intros st tr Hcut.
  - exists [], []. destruct st; simpl in *; subst. unfold_M.
    rewrite Z.sub_0_r, !app_nil_r. split_and!; auto; lia.
  - simpl. unfold selectStep. destruct (is_system m) eqn:Hm.
    + unfold_M.
      destruct (IH (mkLocals (maxTokens st) (cutoff st) (m :: result st)) tr)
        as (l1 & l2 & -> & Hrun & Hfit & Hstop); [done|].
      exists (m :: l1), l2. rewrite Hrun. simpl.
      rewrite chatMessages_cons_system, reverse_cons by done.
      rewrite <- (app_assoc _ [m]). split_and!; auto.
    + rewrite Hcut. unfold_M. rewrite countMessageTokens_run, Hres.
      destruct (maxTokens st <? cost enc m) eqn:Hlt.
      * apply Z.ltb_lt in Hlt. rewrite selectLoop_cut by done. simpl.
        exists [], (m :: l). simpl.
        rewrite systemMessages_cons_chat, Z.sub_0_r by done.
        split_and!; [done|done|lia|eauto 6].
      * apply Z.ltb_ge in Hlt.
        destruct (IH (mkLocals (maxTokens st - cost enc m) false
                        (m :: result st)) (tr ++ [messageCall model m]))
          as (l1 & l2 & -> & Hrun & Hfit & Hstop); [done|].
        exists (m :: l1), l2. rewrite Hrun. simpl in *.
        rewrite chatMessages_cons_chat, reverse_cons by done. simpl.
        rewrite <- (app_assoc _ [m]), <- !app_assoc. simpl.
        replace (maxTokens st - (cost enc m + totalCost enc (chatMessages l1)))
          with (maxTokens st - cost enc m - totalCost enc (chatMessages l1))
          by lia.
        split_and!; [done|done| |done].
        intros H0. assert (0 ≤ maxTokens st - cost enc m) as H1 by lia.
        specialize (Hfit H1). lia.
Qed.

(** *** The first loop *)

Lemma reserveSystem_fits model enc l b tr :
  resolveEncoding model = Some enc →
  totalCost enc (systemMessages l) ≤ b →
  reserveSystem model l b tr =
  (inr (b - totalCost enc (systemMessages l)),
   tr ++ map (messageCall model) (systemMessages l)).
Proof.
  intros Hres. revert b tr. induction l as [|m l IH]; intros b tr Hle.
  - simpl. unfold_M. by rewrite Z.sub_0_r, app_nil_r.
  - simpl. destruct (is_system m) eqn:Hm.
    + rewrite systemMessages_cons_system in * by done. simpl in *.
      unfold_M. rewrite countMessageTokens_run, Hres.
      pose proof (totalCost_nonneg enc (systemMessages l)).
      destruct (b - cost enc m <? 0) eqn:Hlt; [apply Z.ltb_lt in Hlt; lia|].
      rewrite IH by lia. rewrite <- app_assoc. simpl.
      f_equal. f_equal. lia.
    + rewrite systemMessages_cons_chat in * by done. by apply IH.
Qed.

Lemma reserveSystem_exceeds model enc l b tr :
  resolveEncoding model = Some enc →
  0 ≤ b →
  b < totalCost enc (systemMessages l) →
  ∃ counted rest, systemMessages l = counted ++ rest ∧
    b < totalCost enc counted ∧
    reserveSystem model l b tr =
    (inl NotEnoughTokensForSystemMessage,
     tr ++ map (messageCall model) counted).
Proof.
  intros Hres. revert b tr. induction l as [|m l IH]; intros b tr Hb Hlt.
  - simpl in Hlt. lia.
  - simpl. destruct (is_system m) eqn:Hm.
    + rewrite systemMessages_cons_system in * by done. simpl in Hlt.
      unfold_M. rewrite countMessageTokens_run, Hres.
      destruct (b - cost enc m <? 0) eqn:Hneg.
      * apply Z.ltb_lt in Hneg. exists [m], (systemMessages l).
        simpl. split_and!; [done|lia|done].
      * apply Z.ltb_ge in Hneg.
        destruct (IH (b - cost enc m) (tr ++ [messageCall model m]))
          as (counted & rest & Heq & Hex & Hrun); [lia|lia|].
        exists (m :: counted), rest. rewrite Heq, Hrun. simpl.
        rewrite <- app_assoc. split_and!; [done|lia|done].
    + rewrite systemMessages_cons_chat in * by done. by apply IH.
Qed.

(** *** What the loops can throw *)



End Loops.

(** ** Lemmas on a whole run *)

Section Runs.
Context {Tk : Tokenizer} {Tool : Type} {Ser : Serializer Tool}.
Implicit Types (messages older newer : list Message) (tools : list Tool).

(** The function returns the [result] local and throws what its body
    throws. *)
Lemma limitMessagesToTokenCount_run messages tools model maxTokens :
  run (limitMessagesToTokenCount messages tools model maxTokens) =
  match run (limitMessagesToTokenCount_locals messages tools model maxTokens)
  with
  | (inl e, tr) => (inl e, tr)
  | (inr st, tr) => (inr (result st), tr)
  end.
Proof. unfold run, limitMessagesToTokenCount. by unfold_M. Qed.

Lemma reverse_split messages l1 l2 :
  reverse messages = l1 ++ l2 → messages = reverse l2 ++ reverse l1.
Proof.
  intros H. rewrite <- reverse_app, <- H. by rewrite reverse_involutive.
Qed.

Lemma systemMessages_reverse l :
  systemMessages (reverse l) = reverse (systemMessages l).
Proof. apply filter_reverse. Qed.

Lemma nonempty_reverse {A} (l : list A) : nonempty (reverse l) = nonempty l.
Proof.
  destruct l as [|x l]; [done|].
  rewrite reverse_cons. by destruct (reverse l).
Qed.

Lemma chatMessages_reverse l :
  chatMessages (reverse l) = reverse (chatMessages l).
Proof. apply filter_reverse. Qed.

(** Whenever the body returns, the input splits into an older part, of
    which the system messages are kept, and a newer part that is kept
    whole; the older part, if any, ends with a non-system message. *)
Lemma locals_returns_split messages tools model maxTokens st tr :
  run (limitMessagesToTokenCount_locals messages tools model maxTokens)
    = (inr st, tr) →
  ∃ older newer, messages = older ++ newer ∧
    result st = systemMessages older ++ newer ∧
    (older = [] ∨ ∃ o d, older = o ++ [d] ∧ is_system d = false).
Proof.
  unfold run, limitMessagesToTokenCount_locals. unfold_M.
  destruct (countToolsTokens model tools []) as [[e|n] tr1]; [done|].
  destruct (n >? resolveMaxTokens model maxTokens); [done|].
  destruct (reserveSystem model messages _ tr1) as [[e|b] tr2]; [done|].
  intros Hrun. apply selectLoop_returns in Hrun
    as (l1 & l2 & Hsplit & Hres & Hstop); [|done].
  apply reverse_split in Hsplit. simpl in Hres.
  exists (reverse l2), (reverse l1). split_and!; [done| |].
  - rewrite Hres, app_nil_r, reverse_app.
    by rewrite systemMessages_reverse.
  - destruct Hstop as [->|(d & l2' & -> & Hd)]; [by left|right].
    exists (reverse l2'), d. by rewrite reverse_cons.
Qed.

Section Resolved.
Context (model : string) (enc : Tiktoken).
Hypothesis Hres : resolveEncoding model = Some enc.

(** The tool reservation fails: one call at most, on the serialized
    tools, whatever the messages are. *)
Lemma locals_tools_exceed messages tools maxTokens :
  resolveMaxTokens model maxTokens < toolsCost enc tools →
  run (limitMessagesToTokenCount_locals messages tools model maxTokens) =
  (inl (TooManyTokensInFunctionDefinitions (toolsCost enc tools)
          (resolveMaxTokens model maxTokens)),
   toolsCalls model tools).
Proof.
  intros Hlt. unfold run, limitMessagesToTokenCount_locals. unfold_M.
  rewrite (countToolsTokens_run model enc) by done. simpl.
  destruct (toolsCost enc tools >? _) eqn:Hgt; [done|].
  rewrite Z.gtb_ltb in Hgt. apply Z.ltb_ge in Hgt. lia.
Qed.

(** The tool reservation passes: the run continues with the two loops
    on the budget less the tool cost. *)
Lemma locals_tools_fit messages tools maxTokens :
  toolsCost enc tools ≤ resolveMaxTokens model maxTokens →
  run (limitMessagesToTokenCount_locals messages tools model maxTokens) =
  (maxTokens' ← reserveSystem model messages
       (resolveMaxTokens model maxTokens - toolsCost enc tools);
   selectLoop model (reverse messages) (mkLocals maxTokens' false []))
    (toolsCalls model tools).
Proof.
  intros Hle. unfold run, limitMessagesToTokenCount_locals. unfold_M.
  rewrite (countToolsTokens_run model enc) by done. simpl.
  destruct (toolsCost enc tools >? _) eqn:Hgt; [|done].
  rewrite Z.gtb_ltb in Hgt. apply Z.ltb_lt in Hgt. lia.
Qed.

(** The system reservation fails: only system messages were counted. *)
Lemma locals_system_exceed messages tools maxTokens :
  toolsCost enc tools ≤ resolveMaxTokens model maxTokens →
  resolveMaxTokens model maxTokens - toolsCost enc tools
    < totalCost enc (systemMessages messages) →
  ∃ counted rest, systemMessages messages = counted ++ rest ∧
    resolveMaxTokens model maxTokens - toolsCost enc tools
      < totalCost enc counted ∧
    run (limitMessagesToTokenCount_locals messages tools model maxTokens) =
    (inl NotEnoughTokensForSystemMessage,
     toolsCalls model tools ++ map (messageCall model) counted).
Proof.
  intros Hle Hlt. rewrite locals_tools_fit by done. unfold_M.
  destruct (reserveSystem_exceeds model enc messages
              (resolveMaxTokens model maxTokens - toolsCost enc tools)
              (toolsCalls model tools))
    as (counted & rest & Heq & Hex & Hrun); [done|lia|done|].
  exists counted, rest. by rewrite Hrun.
Qed.

(** Both reservations pass: the body returns, and the locals and the
    calls are those of the greedy split. *)
Lemma locals_fit messages tools maxTokens :
  toolsCost enc tools ≤ resolveMaxTokens model maxTokens →
  totalCost enc (systemMessages messages)
    ≤ resolveMaxTokens model maxTokens - toolsCost enc tools →
  let B := resolveMaxTokens model maxTokens - toolsCost enc tools
           - totalCost enc (systemMessages messages) in
  ∃ older newer, messages = older ++ newer ∧
    run (limitMessagesToTokenCount_locals messages tools model maxTokens) =
    (inr (mkLocals (B - totalCost enc (chatMessages newer))
            (nonempty older) (systemMessages older ++ newer)),
     toolsCalls model tools
       ++ map (messageCall model) (systemMessages messages)
       ++ map (messageCall model) (reverse (chatMessages newer))
       ++ failingCall model (reverse older)) ∧
    totalCost enc (chatMessages newer) ≤ B ∧
    (older = [] ∨ ∃ o d, older = o ++ [d] ∧ is_system d = false ∧
       B - totalCost enc (chatMessages newer) < cost enc d).
Proof.
  intros Htools Hsys B. rewrite locals_tools_fit by done. unfold_M.
  rewrite (reserveSystem_fits model enc) by done. fold B.
  destruct (selectLoop_resolved model enc (reverse messages)
              (mkLocals B false [])
              (toolsCalls model tools
                 ++ map (messageCall model) (systemMessages messages)))
    as (l1 & l2 & Hsplit & Hrun & Hfit & Hstop); [done|done|].
  apply reverse_split in Hsplit. simpl in Hrun, Hfit, Hstop.
  exists (reverse l2), (reverse l1).
  rewrite Hrun, chatMessages_reverse, totalCost_reverse.
  rewrite !reverse_involutive, app_nil_r, reverse_app.
  rewrite systemMessages_reverse, <- !app_assoc.
  assert (0 ≤ B) as HB by (unfold B; lia).
  split_and!; [done| |by apply Hfit|].
  - by rewrite nonempty_reverse.
  - destruct Hstop as [->|(d & l2' & -> & Hd & Hlt)]; [by left|right].
    exists (reverse l2'), d. by rewrite reverse_cons.
Qed.

End Resolved.

Lemma systemMessages_idemp l :
  systemMessages (systemMessages l) = systemMessages l.
Proof.
  induction l as [|m l IH]; [done|]. destruct (is_system m) eqn:Hm.
  - rewrite !systemMessages_cons_system by done. by rewrite IH.
  - by rewrite systemMessages_cons_chat.
Qed.

Lemma chatMessages_systemMessages l : chatMessages (systemMessages l) = [].
Proof.
  induction l as [|m l IH]; [done|]. destruct (is_system m) eqn:Hm.
  - rewrite systemMessages_cons_system by done.
    by rewrite chatMessages_cons_system.
  - by rewrite systemMessages_cons_chat.
Qed.

Lemma systemMessages_app l1 l2 :
  systemMessages (l1 ++ l2) = systemMessages l1 ++ systemMessages l2.
Proof. apply filter_app. Qed.

Lemma chatMessages_app l1 l2 :
  chatMessages (l1 ++ l2) = chatMessages l1 ++ chatMessages l2.
Proof. apply filter_app. Qed.

Lemma totalCost_by_role enc l :
  totalCost enc l
  = totalCost enc (systemMessages l) + totalCost enc (chatMessages l).
Proof.
  induction l as [|m l IH]; [done|]. destruct (is_system m) eqn:Hm.
  - rewrite systemMessages_cons_system, chatMessages_cons_system by done.
    simpl. lia.
  - rewrite systemMessages_cons_chat, chatMessages_cons_chat by done.
    simpl. lia.
Qed.

(** With an encoder at hand, a run of the body that returns passed both
    reservations and is described by [locals_fit]. *)
Lemma locals_returns_resolved model enc messages tools maxTokens st tr :
  resolveEncoding model = Some enc →
  run (limitMessagesToTokenCount_locals messages tools model maxTokens)
    = (inr st, tr) →
  let B := resolveMaxTokens model maxTokens - toolsCost enc tools
           - totalCost enc (systemMessages messages) in
  ∃ older newer, messages = older ++ newer ∧
    st = mkLocals (B - totalCost enc (chatMessages newer))
           (nonempty older) (systemMessages older ++ newer) ∧
    tr = toolsCalls model tools
           ++ map (messageCall model) (systemMessages messages)
           ++ map (messageCall model) (reverse (chatMessages newer))
           ++ failingCall model (reverse older) ∧
    totalCost enc (chatMessages newer) ≤ B ∧
    (older = [] ∨ ∃ o d, older = o ++ [d] ∧ is_system d = false ∧
       B - totalCost enc (chatMessages newer) < cost enc d).
Proof.
  intros Hres Hrun B.
  destruct (Z_lt_le_dec (resolveMaxTokens model maxTokens)
              (toolsCost enc tools)) as [Hlt|Htools].
  { rewrite (locals_tools_exceed model enc) in Hrun by done. done. }
  destruct (Z_lt_le_dec
              (resolveMaxTokens model maxTokens - toolsCost enc tools)
              (totalCost enc (systemMessages messages))) as [Hlt|Hsys].
  { destruct (locals_system_exceed model enc Hres messages tools maxTokens)
      as (? & ? & _ & _ & Hthrow); [done|done|]. congruence. }
  destruct (locals_fit model enc Hres messages tools maxTokens)
    as (older & newer & Heq & Hfit & Hle & Hstop); [done|done|].
  exists older, newer. rewrite Hfit in Hrun. simplify_eq. done.
Qed.

End Runs.

(** ** The properties of the specification *)

(** C1. Subsequence property: whenever [limitMessagesToTokenCount] returns,
    what it returns is a subsequence of the input messages, in the order of
    the input. *)
Theorem limit_returns_subsequence `{Tk : Tokenizer} `{Ser : Serializer Tool}
    (messages : list Message) (tools : list Tool) (model : string)
    (maxTokens : option Z) (out : list Message) (tr : Trace) :
  run (limitMessagesToTokenCount messages tools model maxTokens)
    = (inr out, tr) →
  out `sublist_of` messages.
Proof.
  rewrite limitMessagesToTokenCount_run.
  destruct (run (limitMessagesToTokenCount_locals _ _ _ _))
    as [[e|st] tr'] eqn:Hrun; [done|].
  intros [= <- <-].
  apply locals_returns_split in Hrun as (older & newer & -> & -> & _).
  apply sublist_app; [|done]. apply sublist_filter.
Qed.

Lemma limit_returns_subsequence_witness :
  run (limitMessagesToTokenCount (Tk := demoTokenizer) (Ser := demoSerializer)
         conversation [] "gpt-4" (Some 12))
    = (inr [msgS; msgC], callsAt12)
  ∧ [msgS; msgC] `sublist_of` conversation.
Proof.
  assert (run (limitMessagesToTokenCount (Tk := demoTokenizer)
                 (Ser := demoSerializer) conversation [] "gpt-4" (Some 12))
          = (inr [msgS; msgC], callsAt12)) as Hrun
    by (vm_compute; reflexivity).
  split; [exact Hrun|].
  exact (limit_returns_subsequence (Tk := demoTokenizer)
           (Ser := demoSerializer) _ _ _ _ _ _ Hrun).
Defined.

(** C2. System completeness: whenever [limitMessagesToTokenCount] returns,
    the system messages of the output are exactly the system messages of the
    input, in the same order, whatever their token counts are; and an
    iteration of the selection loop on a system message keeps it, leaves the
    remaining budget and the cutoff flag as they are and counts nothing. *)
Theorem system_messages_all_retained `{Tk : Tokenizer} `{Ser : Serializer Tool}
    (messages : list Message) (tools : list Tool) (model : string)
    (maxTokensArg : option Z) (out : list Message) (tr : Trace) :
  run (limitMessagesToTokenCount messages tools model maxTokensArg)
    = (inr out, tr) →
  systemMessages out = systemMessages messages ∧
  ∀ (st : Locals) (m : Message) (tr0 : Trace),
    is_system m = true →
    selectStep model st m tr0 =
    (inr (mkLocals (maxTokens st) (cutoff st) (m :: result st)), tr0).
Proof.
  rewrite limitMessagesToTokenCount_run.
  destruct (run (limitMessagesToTokenCount_locals _ _ _ _))
    as [[e|st] tr'] eqn:Hrun; [done|].
  intros [= <- <-]. split.
  - apply locals_returns_split in Hrun as (older & newer & -> & -> & _).
    by rewrite !systemMessages_app, systemMessages_idemp.
  - intros st0 m tr0 Hm. unfold selectStep. by rewrite Hm.
Qed.

Lemma system_messages_all_retained_witness :
  systemMessages [msgS; msgC] = systemMessages conversation ∧
  ∀ (st : Locals) (m : Message) (tr0 : Trace),
    is_system m = true →
    selectStep (Tk := demoTokenizer) "gpt-4" st m tr0 =
    (inr (mkLocals (maxTokens st) (cutoff st) (m :: result st)), tr0).
Proof.
  apply (system_messages_all_retained (Tk := demoTokenizer)
           (Ser := demoSerializer) conversation [] "gpt-4" (Some 12)
           [msgS; msgC] callsAt12).
  vm_compute; reflexivity.
Defined.







(** C6. No-op when the budget suffices: with the encoder at hand, if the
    tool cost plus the total cost of all the messages is at most the
    resolved budget, the function returns the input sequence itself. *)
Theorem budget_suffices_identity `{Tk : Tokenizer} `{Ser : Serializer Tool}
    (model : string) (enc : Tiktoken) (messages : list Message)
    (tools : list Tool) (maxTokensArg : option Z) :
  resolveEncoding model = Some enc →
  toolsCost enc tools + totalCost enc messages
    ≤ resolveMaxTokens model maxTokensArg →
  ∃ tr, run (limitMessagesToTokenCount messages tools model maxTokensArg)
        = (inr messages, tr).
Proof.
  intros Hres Hle. rewrite (totalCost_by_role enc messages) in Hle.
  pose proof (totalCost_nonneg enc (systemMessages messages)) as Hsys0.
  pose proof (totalCost_nonneg enc (chatMessages messages)) as Hchat0.
  destruct (locals_fit model enc Hres messages tools maxTokensArg)
    as (older & newer & Heq & Hrun & Hfit & Hstop); [lia|lia|].
  rewrite limitMessagesToTokenCount_run, Hrun. simpl.
  destruct Hstop as [->|(o & d & -> & Hd & Hlt)];
    [simpl in Heq |- *; rewrite Heq; by eauto|].
  exfalso. rewrite Heq in Hle at 2.
  rewrite !chatMessages_app, !totalCost_app in Hle.
  rewrite (chatMessages_cons_chat d []) in Hle by done. simpl in Hle.
  pose proof (totalCost_nonneg enc (chatMessages o)). lia.
Qed.

Lemma budget_suffices_identity_witness :
  ∃ tr, run (limitMessagesToTokenCount (Tk := demoTokenizer)
               (Ser := demoSerializer) conversation [] "gpt-4" (Some 100))
        = (inr conversation, tr).
Proof.
  apply (budget_suffices_identity (Tk := demoTokenizer)
           (Ser := demoSerializer) "gpt-4" chars).
  - reflexivity.
  - vm_compute. discriminate.
Defined.









(** C10. A message without content costs nothing: when the [content] of a
    message is absent, null or the empty string, the encoder is given the
    empty string and, for an encoder that maps the empty string to no token,
    the count is 0.  Such a system message leaves the reservation as it is;
    such a non-system message, met while the cutoff flag is not set (the
    budget left is never negative at that point), is kept, does not set the
    flag and leaves the budget as it is; in a run that returns, if all the
    non-system messages newer than it are kept then so is it. *)
Theorem empty_content_costs_nothing `{Tk : Tokenizer} `{Ser : Serializer Tool}
    (model : string) (enc : Tiktoken) (m : Message) :
  resolveEncoding model = Some enc →
  encode enc "" = [] →
  content m = undefined ∨ content m = null ∨ content m = text "" →
  (∀ tr, countMessageTokens model m tr = (inr 0, tr ++ [(model, "")])) ∧
  cost enc m = 0 ∧
  (is_system m = true → ∀ rest b tr, 0 ≤ b →
     reserveSystem model (m :: rest) b tr
     = reserveSystem model rest b (tr ++ [(model, "")])) ∧
  (is_system m = false →
     (∀ st tr, cutoff st = false → 0 ≤ maxTokens st →
        selectStep model st m tr
        = (inr (mkLocals (maxTokens st) false (m :: result st)),
           tr ++ [(model, "")])) ∧
     (∀ older newer (tools : list Tool) maxTokensArg out tr,
        run (limitMessagesToTokenCount (older ++ m :: newer) tools model
               maxTokensArg) = (inr out, tr) →
        chatMessages newer `suffix_of` chatMessages out →
        chatMessages (m :: newer) `suffix_of` chatMessages out)).
Proof.
  intros Hres Hempty Hcontent.
  assert (content_or_empty (content m) = "") as Htext.
  { by destruct Hcontent as [->|[->| ->]]. }
  assert (cost enc m = 0) as Hcost.
  { unfold cost, tokensIn. by rewrite Htext, Hempty. }
  assert (∀ tr, countMessageTokens model m tr = (inr 0, tr ++ [(model, "")]))
    as Hcount.
  { intros tr. rewrite countMessageTokens_run, Hres, Hcost.
    unfold messageCall. by rewrite Htext. }
  split_and!; [exact Hcount|exact Hcost| |].
  - intros Hm rest b tr Hb. simpl. rewrite Hm. unfold_M. rewrite Hcount.
    rewrite Z.sub_0_r. destruct (b <? 0) eqn:Hneg; [|done].
    apply Z.ltb_lt in Hneg. lia.
  - intros Hm. split.
    + intros st tr Hcut Hnonneg. unfold selectStep. rewrite Hm, Hcut.
      unfold_M. rewrite Hcount, Z.sub_0_r.
      destruct (maxTokens st <? 0) eqn:Hneg; [|done].
      apply Z.ltb_lt in Hneg. lia.
    + intros older newer tools maxTokensArg out tr Hrun Hsuffix.
      rewrite limitMessagesToTokenCount_run in Hrun.
      destruct (run (limitMessagesToTokenCount_locals _ _ _ _))
        as [[e|st] tr'] eqn:Hlocals; [done|].
      injection Hrun as <- <-.
      destruct (locals_returns_resolved model enc _ tools maxTokensArg st tr'
                  Hres Hlocals)
        as (older' & newer' & Heq & -> & _ & Hle & Hstop).
      simpl in Hsuffix |- *.
      rewrite chatMessages_app, chatMessages_systemMessages in Hsuffix |- *.
      simpl in Hsuffix |- *.
      destruct Hstop as [->|(o & d & -> & Hd & Hlt)].
      { simpl in Heq. rewrite <- Heq, chatMessages_app. by apply suffix_app_r. }
      rewrite <- app_assoc in Heq. simpl in Heq.
      apply app_eq_inv in Heq as [(k & Holder & Hk)|(k & Ho & Hk)].
      * destruct k as [|x k]; simpl in Hk; injection Hk as -> Hk.
        { lia. }
        rewrite Hk, chatMessages_app. by apply suffix_app_r.
      * destruct k as [|x k]; simpl in Hk; injection Hk as -> Hk.
        { lia. }
        apply suffix_length in Hsuffix.
        rewrite Hk, chatMessages_app, chatMessages_cons_chat in Hsuffix
          by done.
        rewrite length_app in Hsuffix. simpl in Hsuffix. lia.
Qed.

Lemma empty_content_costs_nothing_witness :
  run (countMessageTokens (Tk := demoTokenizer) "gpt-4"
         (mkMessage "user" undefined))
    = (inr 0, [("gpt-4", "")]) ∧
  cost (Tk := demoTokenizer) chars (mkMessage "user" null) = 0 ∧
  selectStep (Tk := demoTokenizer) "gpt-4" (mkLocals 0 false [])
    (mkMessage "user" (text "")) []
  = (inr (mkLocals 0 false [mkMessage "user" (text "")]), [("gpt-4", "")]) ∧
  chatMessages [mkMessage "user" undefined; msgC]
    `suffix_of` chatMessages [msgS; mkMessage "user" undefined; msgC].
Proof.
  split_and!.
  - apply (empty_content_costs_nothing (Tk := demoTokenizer)
             (Ser := demoSerializer) "gpt-4" chars
             (mkMessage "user" undefined)); [reflexivity|reflexivity|by left].
  - apply (empty_content_costs_nothing (Tk := demoTokenizer)
             (Ser := demoSerializer) "gpt-4" chars
             (mkMessage "user" null));
      [reflexivity|reflexivity|right; by left].
  - destruct (empty_content_costs_nothing (Tk := demoTokenizer)
                (Ser := demoSerializer) "gpt-4" chars
                (mkMessage "user" (text "")))
      as (_ & _ & _ & Hchat); [reflexivity|reflexivity|right; by right|].
    destruct Hchat as [Hstep _]; [reflexivity|].
    apply (Hstep (mkLocals 0 false []) []); [reflexivity|simpl; lia].
  - destruct (empty_content_costs_nothing (Tk := demoTokenizer)
                (Ser := demoSerializer) "gpt-4" chars
                (mkMessage "user" undefined))
      as (_ & _ & _ & Hchat); [reflexivity|reflexivity|by left|].
    destruct Hchat as [_ Hrun]; [reflexivity|].
    refine (Hrun [msgA; msgS] [msgC] [] (Some 10)
              [msgS; mkMessage "user" undefined; msgC]
              [("gpt-4", "Be ok"); ("gpt-4", "CCCCC"); ("gpt-4", "");
               ("gpt-4", "AAAAAAAAAA")] _ _).
    + vm_compute. reflexivity.
    + exists [mkMessage "user" undefined]. reflexivity.
Defined.


(** ** Further lemmas on the two loops and on whole runs *)

Section Greedy.
Context {Tk : Tokenizer} {Tool : Type} {Ser : Serializer Tool}.
Implicit Types (messages older newer : list Message) (tools : list Tool).

(** Two stops on one input: with the larger budget the loop stops no later
    (no nearer to the newest message). *)
Lemma stopsAt_mono enc B1 B2 o1 n1 o2 n2 :
  o1 ++ n1 = o2 ++ n2 →
  totalCost enc (chatMessages n1) ≤ B1 →
  B1 ≤ B2 →
  stopsAt enc B2 o2 n2 →
  ∃ k, o1 = o2 ++ k ∧ n2 = k ++ n1.
Proof.
  intros Heq Hfit HB Hstop.
  apply app_eq_inv in Heq as [(k & Ho & Hn)|(k & Ho & Hn)]; [by eauto|].
  destruct Hstop as [->|(o & d & -> & Hd & Hlt)].
  { symmetry in Ho. apply app_eq_nil in Ho as [-> ->].
    exists []. by rewrite app_nil_r. }
  destruct (decide (k = [])) as [->|Hk].
  { exists []. rewrite app_nil_r in Ho. simpl in Hn. by rewrite app_nil_r. }
  exfalso. destruct (exists_last Hk) as (k' & x & ->).
  rewrite app_assoc in Ho. apply app_inj_tail in Ho as [_ Hdx]. subst x.
  rewrite Hn, !chatMessages_app, !totalCost_app in Hfit.
  rewrite (chatMessages_cons_chat d []) in Hfit by done.
  simpl in Hfit. pose proof (totalCost_nonneg enc (chatMessages k')). lia.
Qed.

Lemma stopsAt_unique enc B o1 n1 o2 n2 :
  o1 ++ n1 = o2 ++ n2 →
  totalCost enc (chatMessages n1) ≤ B →
  totalCost enc (chatMessages n2) ≤ B →
  stopsAt enc B o1 n1 → stopsAt enc B o2 n2 →
  o1 = o2 ∧ n1 = n2.
Proof.
  intros Heq H1 H2 Hs1 Hs2.
  destruct (stopsAt_mono enc B B o1 n1 o2 n2) as (k & Ho & Hn);
    [done|done|lia|done|].
  destruct (stopsAt_mono enc B B o2 n2 o1 n1) as (k' & Ho' & Hn');
    [done|done|lia|done|].
  assert (length k = 0%nat) as Hk.
  { apply (f_equal length) in Hn, Hn'. rewrite length_app in Hn, Hn'. lia. }
  destruct k; [|done]. rewrite app_nil_r in Ho. done.
Qed.

Section Resolved.
Context (model : string) (enc : Tiktoken).
Hypothesis Hres : resolveEncoding model = Some enc.

(** A run of the body that returns passed both reservations. *)
Lemma locals_returns_passes messages tools maxTokens st tr :
  run (limitMessagesToTokenCount_locals messages tools model maxTokens)
    = (inr st, tr) →
  toolsCost enc tools ≤ resolveMaxTokens model maxTokens ∧
  totalCost enc (systemMessages messages)
    ≤ resolveMaxTokens model maxTokens - toolsCost enc tools.
Proof.
  intros Hrun.
  destruct (Z_lt_le_dec (resolveMaxTokens model maxTokens)
              (toolsCost enc tools)) as [Hlt|Htools].
  { by rewrite (locals_tools_exceed model enc) in Hrun. }
  split; [done|].
  destruct (Z_lt_le_dec
              (resolveMaxTokens model maxTokens - toolsCost enc tools)
              (totalCost enc (systemMessages messages))) as [Hlt|Hsys]; [|done].
  destruct (locals_system_exceed model enc Hres messages tools maxTokens)
    as (? & ? & _ & _ & Hthrow); [done|done|]. congruence.
Qed.

(** The run on [older ++ newer] when the second loop is known to stop
    between the two. *)
Lemma locals_stops_at older newer tools maxTokens :
  toolsCost enc tools ≤ resolveMaxTokens model maxTokens →
  totalCost enc (systemMessages (older ++ newer))
    ≤ resolveMaxTokens model maxTokens - toolsCost enc tools →
  let B := resolveMaxTokens model maxTokens - toolsCost enc tools
           - totalCost enc (systemMessages (older ++ newer)) in
  totalCost enc (chatMessages newer) ≤ B →
  stopsAt enc B older newer →
  run (limitMessagesToTokenCount_locals (older ++ newer) tools model maxTokens)
  = (inr (mkLocals (B - totalCost enc (chatMessages newer))
            (nonempty older) (systemMessages older ++ newer)),
     toolsCalls model tools
       ++ map (messageCall model) (systemMessages (older ++ newer))
       ++ map (messageCall model) (reverse (chatMessages newer))
       ++ failingCall model (reverse older)).
Proof.
  intros Htools Hsys B Hfit Hstop.
  destruct (locals_fit model enc Hres (older ++ newer) tools maxTokens)
    as (older' & newer' & Heq & Hrun & Hfit' & Hstop'); [done|done|].
  fold B in Hrun, Hfit', Hstop'.
  destruct (stopsAt_unique enc B older newer older' newer')
    as [<- <-]; done.
Qed.

(** What a returning run leaves in [result] fits, with the tools, in the
    resolved budget, and the local [maxTokens] is exactly what is left. *)
Lemma locals_returns_accounts messages tools maxTokensArg st tr :
  run (limitMessagesToTokenCount_locals messages tools model maxTokensArg)
    = (inr st, tr) →
  maxTokens st = resolveMaxTokens model maxTokensArg - toolsCost enc tools
                 - totalCost enc (result st) ∧
  0 ≤ maxTokens st ∧
  systemMessages (result st) = systemMessages messages.
Proof.
  intros Hrun.
  destruct (locals_returns_resolved model enc messages tools maxTokensArg
              st tr Hres Hrun)
    as (older & newer & -> & -> & _ & Hle & _). simpl.
  rewrite (totalCost_by_role enc (systemMessages older ++ newer)).
  rewrite !systemMessages_app, !chatMessages_app, systemMessages_idemp.
  rewrite chatMessages_systemMessages. simpl.
  rewrite systemMessages_app in Hle. split_and!; [lia|lia|done].
Qed.

End Resolved.

(** *** The calls of each loop *)

(** The first loop calls the tokenizer on the system messages, in their
    order, up to the one at which it throws, if it does. *)
Lemma reserveSystem_trace model l b tr r tr' :
  reserveSystem model l b tr = (r, tr') →
  ∃ counted, tr' = tr ++ map (messageCall model) counted ∧
    counted `prefix_of` systemMessages l ∧
    (∀ b', r = inr b' → counted = systemMessages l).
Proof.
  revert b tr. induction l as [|m l IH]; intros b tr; simpl.
  - unfold_M. intros [= <- <-]. exists []. by rewrite app_nil_r.
  - destruct (is_system m) eqn:Hm.
    + rewrite systemMessages_cons_system by done. unfold_M.
      rewrite countMessageTokens_run.
      assert (∃ counted, tr ++ [messageCall model m]
                = tr ++ map (messageCall model) counted ∧
                counted `prefix_of` m :: systemMessages l) as Hone.
      { exists [m]. split; [done|]. by exists (systemMessages l). }
      destruct (resolveEncoding model) as [enc|].
      * destruct (b - cost enc m <? 0).
        -- intros [= <- <-]. destruct Hone as (c & ? & ?). by exists c.
        -- intros Hrun. apply IH in Hrun as (counted & -> & Hpre & Hall).
           exists (m :: counted). rewrite <- app_assoc. split_and!.
           ++ done.
           ++ by apply prefix_cons.
           ++ intros b' Hr. by rewrite (Hall b' Hr).
      * intros [= <- <-]. destruct Hone as (c & ? & ?). by exists c.
    + rewrite systemMessages_cons_chat by done. apply IH.
Qed.

(** The second loop calls it on the non-system messages, from the first of
    its list on, up to the one at which it stops. *)
Lemma selectLoop_trace model l st tr r tr' :
  selectLoop model l st tr = (r, tr') →
  ∃ counted, tr' = tr ++ map (messageCall model) counted ∧
    counted `prefix_of` chatMessages l.
Proof.
  revert st tr. induction l as [|m l IH]; intros st tr; simpl.
  - unfold_M. intros [= _ <-]. exists []. by rewrite app_nil_r.
  - unfold selectStep. destruct (is_system m) eqn:Hm.
    { rewrite chatMessages_cons_system by done. unfold_M. apply IH. }
    rewrite chatMessages_cons_chat by done.
    destruct (cutoff st) eqn:Hcut.
    { unfold_M. rewrite selectLoop_cut by done. intros [= _ <-].
      exists []. rewrite app_nil_r. split; [done|]. apply prefix_nil. }
    unfold_M. rewrite countMessageTokens_run.
    assert (∀ tr0 : Trace,
              (∃ counted, tr0 = (tr ++ [messageCall model m])
                                ++ map (messageCall model) counted ∧
                 counted `prefix_of` chatMessages l) →
              ∃ counted, tr0 = tr ++ map (messageCall model) counted ∧
                counted `prefix_of` m :: chatMessages l) as Hcons.
    { intros tr0 (counted & -> & Hpre). exists (m :: counted).
      rewrite <- app_assoc. split; [done|]. by apply prefix_cons. }
    destruct (resolveEncoding model) as [enc|].
    + destruct (maxTokens st <? cost enc m); intros Hrun;
        apply IH in Hrun; by apply Hcons.
    + intros [= _ <-]. exists [m]. split; [done|].
      by exists (chatMessages l).
Qed.

Lemma length_by_role l :
  length l = (length (systemMessages l) + length (chatMessages l))%nat.
Proof.
  induction l as [|m l IH]; [done|]. destruct (is_system m) eqn:Hm.
  - rewrite systemMessages_cons_system, chatMessages_cons_system by done.
    simpl. lia.
  - rewrite systemMessages_cons_chat, chatMessages_cons_chat by done.
    simpl. lia.
Qed.


(** *** Without any encoder *)

Lemma reserveSystem_unresolved model l b tr :
  resolveEncoding model = None →
  reserveSystem model l b tr =
  match systemMessages l with
  | [] => (inr b, tr)
  | m :: _ => (inl (UnknownModel "gpt-4o"), tr ++ [messageCall model m])
  end.
Proof.
  intros Hres. induction l as [|m l IH]; [done|]. simpl.
  destruct (is_system m) eqn:Hm.
  - rewrite systemMessages_cons_system by done. unfold_M.
    by rewrite countMessageTokens_run, Hres.
  - by rewrite systemMessages_cons_chat.
Qed.

Lemma selectLoop_unresolved model l st tr :
  resolveEncoding model = None →
  cutoff st = false →
  selectLoop model l st tr =
  match chatMessages l with
  | [] => (inr (mkLocals (maxTokens st) false (reverse l ++ result st)), tr)
  | m :: _ => (inl (UnknownModel "gpt-4o"), tr ++ [messageCall model m])
  end.
Proof.
  intros Hres. revert st. induction l as [|m l IH]; intros st Hcut.
  - destruct st; simpl in *. by subst.
  - simpl. unfold selectStep. destruct (is_system m) eqn:Hm.
    + rewrite chatMessages_cons_system by done. unfold_M.
      rewrite IH by done. simpl.
      destruct (chatMessages l); [|done].
      by rewrite reverse_cons, <- app_assoc.
    + rewrite chatMessages_cons_chat, Hcut by done. unfold_M.
      by rewrite countMessageTokens_run, Hres.
Qed.

End Greedy.

(** ** Further properties of [limitMessagesToTokenCount] *)

(** X1. The output fits: with the encoder at hand and a resolved budget
    that is a number (a [maxTokens] that is given and not zero, or a model
    whose name is not an inherited member of the table), whenever the body
    returns, the function returns its [result], the cost of the tools plus
    the cost of every returned message is at most the resolved budget, and
    the local [maxTokens] holds exactly what is left of it. *)
Theorem output_fits_budget `{Tk : Tokenizer} `{Ser : Serializer Tool}
    (model : string) (enc : Tiktoken) (messages : list Message)
    (tools : list Tool) (maxTokensArg : option Z) (budget : Z)
    (st : Locals) (tr : Trace) :
  resolveEncoding model = Some enc →
  resolveMaxTokens_js model maxTokensArg = number budget →
  run (limitMessagesToTokenCount_locals messages tools model maxTokensArg)
    = (inr st, tr) →
  run (limitMessagesToTokenCount messages tools model maxTokensArg)
    = (inr (result st), tr) ∧
  toolsCost enc tools + totalCost enc (result st) ≤ budget ∧
  maxTokens st = budget - toolsCost enc tools - totalCost enc (result st).
Proof.
  intros Hres Hbudget Hrun. apply resolveMaxTokens_js_inv in Hbudget as <-.
  destruct (locals_returns_accounts model enc Hres messages tools maxTokensArg
              st tr Hrun) as (Hleft & Hnonneg & _).
  rewrite limitMessagesToTokenCount_run, Hrun. split_and!; [done|lia|done].
Qed.

Lemma output_fits_budget_witness :
  toolsCost (Tk := demoTokenizer) (Ser := demoSerializer) chars ["f"]
    + totalCost (Tk := demoTokenizer) chars [msgS; msgC] ≤ 17.
Proof.
  destruct (output_fits_budget (Tk := demoTokenizer) (Ser := demoSerializer)
              "gpt-4" chars conversation ["f"] (Some 17) 17
              (mkLocals 2 true [msgS; msgC])
              [("gpt-4", demoSerializer ["f"]); ("gpt-4", "Be ok");
               ("gpt-4", "CCCCC"); ("gpt-4", "BBBBBBBBBB")])
    as (_ & Hfit & _).
  - reflexivity.
  - reflexivity.
  - vm_compute. reflexivity.
  - exact Hfit.
Defined.

(** X2. With the encoder at hand and a resolved budget that is a number,
    the function returns its input unchanged exactly when the tools and all
    the messages fit in the resolved budget together. *)
Theorem unchanged_iff_all_fits `{Tk : Tokenizer} `{Ser : Serializer Tool}
    (model : string) (enc : Tiktoken) (messages : list Message)
    (tools : list Tool) (maxTokensArg : option Z) (budget : Z) :
  resolveEncoding model = Some enc →
  resolveMaxTokens_js model maxTokensArg = number budget →
  (∃ tr, run (limitMessagesToTokenCount messages tools model maxTokensArg)
         = (inr messages, tr))
  ↔ toolsCost enc tools + totalCost enc messages ≤ budget.
Proof.
  intros Hres Hbudget. apply resolveMaxTokens_js_inv in Hbudget as <-. split.
  - intros [tr Hrun]. rewrite limitMessagesToTokenCount_run in Hrun.
    destruct (run (limitMessagesToTokenCount_locals _ _ _ _))
      as [[e|st] tr'] eqn:Hlocals; [done|].
    injection Hrun as Hout _.
    destruct (locals_returns_accounts model enc Hres messages tools
                maxTokensArg st tr' Hlocals) as (Hleft & Hnonneg & _).
    rewrite Hout in Hleft. lia.
  - intros Hle. rewrite (totalCost_by_role enc messages) in Hle.
    pose proof (totalCost_nonneg enc (systemMessages messages)).
    pose proof (totalCost_nonneg enc (chatMessages messages)).
    rewrite limitMessagesToTokenCount_run.
    pose proof (locals_stops_at model enc Hres [] messages tools maxTokensArg)
      as Hrun. simpl in Hrun. rewrite Hrun; [by eauto|lia|lia|lia|by left].
Qed.

Lemma unchanged_iff_all_fits_witness :
  (∃ tr, run (limitMessagesToTokenCount (Tk := demoTokenizer)
                (Ser := demoSerializer) conversation [] "gpt-4" (Some 30))
         = (inr conversation, tr))
  ∧ ¬ (∃ tr, run (limitMessagesToTokenCount (Tk := demoTokenizer)
                    (Ser := demoSerializer) conversation [] "gpt-4" (Some 29))
             = (inr conversation, tr)).
Proof.
  split.
  - apply (unchanged_iff_all_fits (Tk := demoTokenizer)
             (Ser := demoSerializer) "gpt-4" chars conversation [] (Some 30)
             30); [reflexivity|reflexivity|].
    vm_compute. discriminate.
  - intros H.
    apply (unchanged_iff_all_fits (Tk := demoTokenizer)
             (Ser := demoSerializer) "gpt-4" chars conversation [] (Some 29)
             29) in H; [|reflexivity|reflexivity].
    vm_compute in H. apply H. reflexivity.
Defined.

(** X3. Idempotence: with the encoder at hand, giving the function its own
    output again, with the same tools, model and [maxTokens], returns that
    output unchanged. *)
Theorem limit_idempotent `{Tk : Tokenizer} `{Ser : Serializer Tool}
    (model : string) (enc : Tiktoken) (messages : list Message)
    (tools : list Tool) (maxTokensArg : option Z) (out : list Message)
    (tr : Trace) :
  resolveEncoding model = Some enc →
  run (limitMessagesToTokenCount messages tools model maxTokensArg)
    = (inr out, tr) →
  ∃ tr', run (limitMessagesToTokenCount out tools model maxTokensArg)
         = (inr out, tr').
Proof.
  intros Hres Hrun. rewrite limitMessagesToTokenCount_run in Hrun.
  destruct (run (limitMessagesToTokenCount_locals _ _ _ _))
    as [[e|st] tr0] eqn:Hlocals; [done|].
  injection Hrun as <- <-.
  destruct (locals_returns_accounts model enc Hres messages tools
              maxTokensArg st tr0 Hlocals) as (Hleft & Hnonneg & _).
  rewrite (totalCost_by_role enc (result st)) in Hleft.
  pose proof (totalCost_nonneg enc (systemMessages (result st))).
  pose proof (totalCost_nonneg enc (chatMessages (result st))).
  rewrite limitMessagesToTokenCount_run.
  pose proof (locals_stops_at model enc Hres [] (result st) tools maxTokensArg)
    as Hagain. simpl in Hagain.
  rewrite Hagain; [by eauto|lia|lia|lia|by left].
Qed.

Lemma limit_idempotent_witness :
  ∃ tr', run (limitMessagesToTokenCount (Tk := demoTokenizer)
                (Ser := demoSerializer) [msgS; msgC] [] "gpt-4" (Some 12))
         = (inr [msgS; msgC], tr').
Proof.
  apply (limit_idempotent (Tk := demoTokenizer) (Ser := demoSerializer)
           "gpt-4" chars conversation [] (Some 12) [msgS; msgC] callsAt12).
  - reflexivity.
  - vm_compute. reflexivity.
Defined.

(** X4. A larger budget keeps more: with the encoder at hand, if the
    function returns under two resolved budgets that are numbers, the
    output under the smaller one is a subsequence of the output under the
    larger one, and its non-system messages are a suffix of those of the
    other. *)
Theorem larger_budget_keeps_more `{Tk : Tokenizer} `{Ser : Serializer Tool}
    (model : string) (enc : Tiktoken) (messages : list Message)
    (tools : list Tool) (maxTokens1 maxTokens2 : option Z) (budget1 budget2 : Z)
    (out1 out2 : list Message) (tr1 tr2 : Trace) :
  resolveEncoding model = Some enc →
  resolveMaxTokens_js model maxTokens1 = number budget1 →
  resolveMaxTokens_js model maxTokens2 = number budget2 →
  budget1 ≤ budget2 →
  run (limitMessagesToTokenCount messages tools model maxTokens1)
    = (inr out1, tr1) →
  run (limitMessagesToTokenCount messages tools model maxTokens2)
    = (inr out2, tr2) →
  out1 `sublist_of` out2 ∧
  chatMessages out1 `suffix_of` chatMessages out2.
Proof.
  intros Hres Hb1 Hb2 Hbudget Hrun Hrun'.
  apply resolveMaxTokens_js_inv in Hb1 as <-.
  apply resolveMaxTokens_js_inv in Hb2 as <-.
  rewrite limitMessagesToTokenCount_run in Hrun, Hrun'.
  destruct (run (limitMessagesToTokenCount_locals _ _ _ maxTokens1))
    as [[e|st] tr0] eqn:Hlocals; [done|].
  injection Hrun as <- <-.
  destruct (locals_returns_passes model enc Hres messages tools maxTokens1
              st tr0 Hlocals) as [Htools Hsys].
  destruct (locals_returns_resolved model enc messages tools maxTokens1
              st tr0 Hres Hlocals)
    as (o1 & n1 & Heq1 & -> & _ & Hfit1 & _).
  destruct (locals_fit model enc Hres messages tools maxTokens2)
    as (o2 & n2 & Heq2 & Hrun2 & Hfit2 & Hstop2); [lia|lia|].
  destruct (stopsAt_mono enc
              (resolveMaxTokens model maxTokens1 - toolsCost enc tools
               - totalCost enc (systemMessages messages))
              (resolveMaxTokens model maxTokens2 - toolsCost enc tools
               - totalCost enc (systemMessages messages)) o1 n1 o2 n2)
    as (k & -> & ->); [congruence|exact Hfit1|lia|exact Hstop2|].
  rewrite Hrun2 in Hrun'. injection Hrun' as <- _. simpl. split.
  - rewrite systemMessages_app, <- app_assoc.
    apply sublist_app; [done|]. apply sublist_app; [|done].
    apply sublist_filter.
  - rewrite !chatMessages_app, !chatMessages_systemMessages. simpl.
    by apply suffix_app_r.
Qed.

Lemma larger_budget_keeps_more_witness :
  [msgS; msgC] `sublist_of` [msgS; msgB; msgC] ∧
  chatMessages [msgS; msgC] `suffix_of` chatMessages [msgS; msgB; msgC].
Proof.
  apply (larger_budget_keeps_more (Tk := demoTokenizer)
           (Ser := demoSerializer) "gpt-4" chars conversation [] (Some 12)
           (Some 20) 12 20 [msgS; msgC] [msgS; msgB; msgC] callsAt12
           [("gpt-4", "Be ok"); ("gpt-4", "CCCCC"); ("gpt-4", "BBBBBBBBBB");
            ("gpt-4", "AAAAAAAAAA")]).
  - reflexivity.
  - reflexivity.
  - reflexivity.
  - vm_compute. discriminate.
  - vm_compute. reflexivity.
  - vm_compute. reflexivity.
Defined.

(** X5. Without any encoder: when the tokenizer knows neither the model nor
    ["gpt-4o"], a call with at least one tool throws the tokenizer's error
    after one call, on the serialized tools; a call with no tool, a resolved
    budget that is not negative and at least one message throws it after one
    call, on a message of the input; only the call with no tool and no
    message returns, and it returns no message. *)
Theorem no_encoder_is_fatal `{Tk : Tokenizer} `{Ser : Serializer Tool}
    (model : string) (messages : list Message) (tools : list Tool)
    (maxTokensArg : option Z) :
  resolveEncoding model = None →
  (tools ≠ [] →
     run (limitMessagesToTokenCount messages tools model maxTokensArg)
     = (inl (UnknownModel "gpt-4o"), [(model, JSON_stringify tools)])) ∧
  (tools = [] → 0 ≤ resolveMaxTokens model maxTokensArg →
     (messages ≠ [] →
        ∃ m, m ∈ messages ∧
          run (limitMessagesToTokenCount messages tools model maxTokensArg)
          = (inl (UnknownModel "gpt-4o"), [messageCall model m])) ∧
     (messages = [] →
        run (limitMessagesToTokenCount messages tools model maxTokensArg)
        = (inr [], []))).
Proof.
  intros Hres. split.
  - intros Hne. destruct tools as [|t tools]; [done|].
    unfold run, limitMessagesToTokenCount, limitMessagesToTokenCount_locals.
    unfold_M. simpl. by rewrite countTokens_run, Hres.
  - intros -> Hbudget.
    assert (run (limitMessagesToTokenCount messages ([] : list Tool) model
                   maxTokensArg)
            = match systemMessages messages with
              | m :: _ =>
                  (inl (UnknownModel "gpt-4o"), [messageCall model m])
              | [] =>
                  match chatMessages (reverse messages) with
                  | m :: _ =>
                      (inl (UnknownModel "gpt-4o"), [messageCall model m])
                  | [] => (inr messages, [])
                  end
              end) as Hrun.
    { unfold run, limitMessagesToTokenCount, limitMessagesToTokenCount_locals.
      simpl. unfold_M.
      destruct (0 >? resolveMaxTokens model maxTokensArg) eqn:Hgt.
      { rewrite Z.gtb_ltb in Hgt. apply Z.ltb_lt in Hgt. lia. }
      rewrite reserveSystem_unresolved by done.
      destruct (systemMessages messages); [|done].
      rewrite selectLoop_unresolved by done.
      destruct (chatMessages (reverse messages)); [|done].
      simpl. by rewrite app_nil_r, reverse_involutive. }
    split.
    + intros Hne. rewrite Hrun.
      destruct (systemMessages messages) as [|m l] eqn:Hsys.
      * destruct (chatMessages (reverse messages)) as [|m l] eqn:Hchat.
        -- exfalso. pose proof (length_by_role messages) as Hlen.
           rewrite chatMessages_reverse in Hchat.
           apply (f_equal reverse) in Hchat.
           rewrite reverse_involutive in Hchat.
           rewrite Hsys, Hchat in Hlen. by destruct messages.
        -- exists m. split; [|done].
           assert (m ∈ chatMessages (reverse messages)) as Hin
             by (rewrite Hchat; left).
           apply list_elem_of_filter in Hin as [_ Hin].
           by apply (proj1 (elem_of_reverse m messages)) in Hin.
      * exists m. split; [|done].
        assert (m ∈ systemMessages messages) as Hin by (rewrite Hsys; left).
        by apply list_elem_of_filter in Hin as [_ Hin].
    + intros ->. by rewrite Hrun.
Qed.

Lemma no_encoder_is_fatal_witness :
  run (limitMessagesToTokenCount (Tk := emptyTokenizer)
         (Ser := demoSerializer) conversation ["f"] "gpt-4" (Some 100))
  = (inl (UnknownModel "gpt-4o"), [("gpt-4", demoSerializer ["f"])])
  ∧ run (limitMessagesToTokenCount (Tk := emptyTokenizer)
           (Ser := demoSerializer) [] [] "gpt-4" (Some 100))
    = (inr [], []).
Proof.
  destruct (no_encoder_is_fatal (Tk := emptyTokenizer)
              (Ser := demoSerializer) "gpt-4" conversation ["f"] (Some 100))
    as [Htools _]; [reflexivity|].
  destruct (no_encoder_is_fatal (Tk := emptyTokenizer)
              (Ser := demoSerializer) "gpt-4" [] [] (Some 100))
    as [_ Hnone]; [reflexivity|].
  split.
  - apply Htools. discriminate.
  - destruct Hnone as [_ Hempty]; [reflexivity|vm_compute; discriminate|].
    by apply Hempty.
Defined.

(** X6. A negative [maxTokens] always fails as tools too large: with no
    tools the error reports 0 tokens against the negative budget, without
    any call of the tokenizer; with tools and the encoder at hand it reports
    their cost.  No message is counted. *)
Theorem negative_maxTokens_throws `{Tk : Tokenizer} `{Ser : Serializer Tool}
    (model : string) (messages : list Message) (n : Z) :
  n < 0 →
  run (limitMessagesToTokenCount messages ([] : list Tool) model (Some n))
  = (inl (TooManyTokensInFunctionDefinitions 0 n), []) ∧
  ∀ enc (tools : list Tool),
    resolveEncoding model = Some enc →
    run (limitMessagesToTokenCount messages tools model (Some n))
    = (inl (TooManyTokensInFunctionDefinitions (toolsCost enc tools) n),
       toolsCalls model tools).
Proof.
  intros Hn.
  assert (resolveMaxTokens model (Some n) = n) as Hbudget.
  { unfold resolveMaxTokens, or_else. destruct (n =? 0) eqn:H0; [|done].
    apply Z.eqb_eq in H0. lia. }
  split.
  - unfold run, limitMessagesToTokenCount, limitMessagesToTokenCount_locals.
    rewrite Hbudget. simpl. unfold_M.
    destruct (0 >? n) eqn:Hgt; [done|].
    rewrite Z.gtb_ltb in Hgt. apply Z.ltb_ge in Hgt. lia.
  - intros enc tools Hres. rewrite limitMessagesToTokenCount_run.
    rewrite (locals_tools_exceed model enc) by
      (try done; rewrite Hbudget; pose proof (toolsCost_nonneg enc tools); lia).
    by rewrite Hbudget.
Qed.

Lemma negative_maxTokens_throws_witness :
  run (limitMessagesToTokenCount (Tk := emptyTokenizer)
         (Ser := demoSerializer) conversation [] "gpt-4" (Some (-1)))
  = (inl (TooManyTokensInFunctionDefinitions 0 (-1)), []).
Proof.
  apply (negative_maxTokens_throws (Tk := emptyTokenizer)
           (Ser := demoSerializer) "gpt-4" conversation (-1)).
  reflexivity.
Defined.



(** X8. No message is counted twice: for every tokenizer and every
    outcome, returned or thrown, the calls of [countTokens] in a run are the
    call on the serialized tools, if there are tools, then calls on system
    messages only, a prefix of them in their order, one call each, then
    calls on non-system messages only, from the newest back, one call each;
    the second loop counts nothing unless the first has counted every system
    message.  So the calls are at most one per message, plus one when there
    are tools. *)
Theorem calls_at_most_once_each `{Tk : Tokenizer} `{Ser : Serializer Tool}
    (model : string) (messages : list Message) (tools : list Tool)
    (maxTokensArg : option Z) :
  ∃ system chat,
    (run (limitMessagesToTokenCount messages tools model maxTokensArg)).2
    = toolsCalls model tools ++ map (messageCall model) system
        ++ map (messageCall model) chat ∧
    system `prefix_of` systemMessages messages ∧
    chat `prefix_of` reverse (chatMessages messages) ∧
    (chat ≠ [] → system = systemMessages messages) ∧
    (length (run (limitMessagesToTokenCount messages tools model
                    maxTokensArg)).2
     ≤ toolsCallCount tools + length messages)%nat.
Proof.
  assert (∃ system chat,
    (run (limitMessagesToTokenCount messages tools model maxTokensArg)).2
    = toolsCalls model tools ++ map (messageCall model) system
        ++ map (messageCall model) chat ∧
    system `prefix_of` systemMessages messages ∧
    chat `prefix_of` reverse (chatMessages messages) ∧
    (chat ≠ [] → system = systemMessages messages))
    as (system & chat & Htr & Hsys & Hchat & Hthen).
  { rewrite limitMessagesToTokenCount_run.
    assert (∀ (x : (Error + Locals) * Trace),
              (match x with
               | (inl e, tr) => (inl e, tr)
               | (inr st, tr) => (inr (result st), tr)
               end : (Error + list Message) * Trace).2 = x.2) as ->
      by (by intros [[?|?] ?]).
    unfold run, limitMessagesToTokenCount_locals. unfold_M.
    assert (∃ r, countToolsTokens model tools [] = (r, toolsCalls model tools))
      as [r0 ->].
    { destruct tools as [|t tools]; simpl; [by eexists|].
      rewrite countTokens_run. by eexists. }
    assert (toolsCalls model tools
            = toolsCalls model tools ++ map (messageCall model) []
                ++ map (messageCall model) []) as Hnone
      by (by rewrite app_nil_r).
    destruct r0 as [e|n]; simpl.
    { exists [], []. split_and!; [done|apply prefix_nil|apply prefix_nil|done]. }
    destruct (n >? resolveMaxTokens model maxTokensArg); simpl.
    { exists [], []. split_and!; [done|apply prefix_nil|apply prefix_nil|done]. }
    destruct (reserveSystem model messages _ (toolsCalls model tools))
      as [[e|b] tr2] eqn:Hreserve;
      apply reserveSystem_trace in Hreserve as (system & -> & Hpre & Hall);
      simpl.
    { exists system, []. rewrite app_nil_r.
      split_and!; [done|done|apply prefix_nil|done]. }
    destruct (selectLoop model (reverse messages) _ _) as [r tr3] eqn:Hselect.
    apply selectLoop_trace in Hselect as (chat & -> & Hchat). simpl.
    exists system, chat. rewrite <- app_assoc.
    rewrite chatMessages_reverse in Hchat.
    split_and!; [done|done|done|]. intros _. by apply (Hall b). }
  exists system, chat. split_and!; [done|done|done|done|].
  rewrite Htr, !length_app, !length_map.
  apply prefix_length in Hsys, Hchat. rewrite length_reverse in Hchat.
  pose proof (length_by_role messages).
  assert (length (toolsCalls model tools) = toolsCallCount tools) as ->
    by (by destruct tools).
  lia.
Qed.

(** X9. The limit of a model is a number in the table's range unless the
    identifier names an inherited member: for every identifier that is not
    the name of a member of [Object.prototype], listed or not,
    [maxTokensForOpenAIModel] gives a number that is at least 4096 and at
    most 128000; for the name of such a member it gives that member. *)
Theorem model_limit_in_range (model : string) :
  (model ∉ objectPrototypeMembers →
     ∃ n, maxTokensForOpenAIModel_js model = number n ∧
          4096 ≤ n ≤ 128000) ∧
  (model ∈ objectPrototypeMembers →
     maxTokensForOpenAIModel_js model = member model).
Proof.
  split.
  - intros Hnot. exists (maxTokensForOpenAIModel model).
    split; [by apply maxTokensForOpenAIModel_js_number|].
    assert (map_Forall (λ _ n, 4096 ≤ n ≤ 128000) maxTokensByModel) as Htable.
    { apply (bool_decide_unpack _). vm_compute. exact I. }
    unfold maxTokensForOpenAIModel, or_else.
    destruct (maxTokensByModel !! model) as [n|] eqn:Hn; [|done].
    apply Htable in Hn. destruct (n =? 0); [done|lia].
  - intros Hin. unfold maxTokensForOpenAIModel_js.
    by rewrite readProperty_table_inherited.
Qed.

Lemma model_limit_in_range_witness :
  (∃ n, maxTokensForOpenAIModel_js "gpt-3.5-turbo-instruct" = number n ∧
        4096 ≤ n ≤ 128000) ∧
  maxTokensForOpenAIModel_js "toString" = member "toString".
Proof.
  split.
  - apply (model_limit_in_range "gpt-3.5-turbo-instruct").
    apply (bool_decide_unpack _). vm_compute. exact I.
  - apply (model_limit_in_range "toString").
    apply (bool_decide_unpack _). vm_compute. exact I.
Defined.

(** A run that returns the system messages of [o] followed by [newer] on
    the input [o ++ d :: newer], with [d] not a system message, stopped
    at [d]. *)
Lemma locals_dropped_at `{Tk : Tokenizer} `{Ser : Serializer Tool}
    (model : string) (enc : Tiktoken) (o newer : list Message) (d : Message)
    (tools : list Tool) (maxTokensArg : option Z) (st : Locals) (tr : Trace) :
  resolveEncoding model = Some enc →
  is_system d = false →
  run (limitMessagesToTokenCount_locals (o ++ d :: newer) tools model
         maxTokensArg) = (inr st, tr) →
  result st = systemMessages o ++ newer →
  let B := resolveMaxTokens model maxTokensArg - toolsCost enc tools
           - totalCost enc (systemMessages (o ++ d :: newer)) in
  totalCost enc (chatMessages newer) ≤ B ∧
  B - totalCost enc (chatMessages newer) < cost enc d.
Proof.
  intros Hres Hd Hrun Hout B.
  destruct (locals_returns_resolved model enc _ tools maxTokensArg st tr
              Hres Hrun)
    as (older' & newer' & Heq & -> & _ & Hfit & Hstop).
  fold B in Hfit, Hstop. simpl in Hout.
  assert (∀ l : list Message, length (systemMessages l) ≤ length l)%nat
    as Hshort by (intros l; apply length_filter).
  apply app_eq_inv in Heq as [(k & -> & ->)|(k & -> & Hk)].
  - exfalso. rewrite systemMessages_app, <- app_assoc in Hout.
    apply app_inv_head in Hout. apply (f_equal length) in Hout.
    rewrite !length_app in Hout. simpl in Hout. specialize (Hshort k). lia.
  - destruct k as [|x k]; simpl in Hk.
    { exfalso. subst newer'. rewrite app_nil_r in Hout.
      apply app_inv_head in Hout. apply (f_equal length) in Hout.
      simpl in Hout. lia. }
    injection Hk as Hx Hk. subst x newer.
    rewrite systemMessages_app, systemMessages_cons_chat in Hout by done.
    rewrite <- app_assoc in Hout. apply app_inv_head, app_inv_tail in Hout.
    destruct Hstop as [Hnil|(o2 & d2 & Hlast & Hd2 & Hlt)].
    { by destruct o. }
    destruct (decide (k = [])) as [->|Hne].
    + change (o ++ [d] = o2 ++ [d2]) in Hlast.
      apply app_inj_tail in Hlast as [_ <-]. done.
    + exfalso. destruct (exists_last Hne) as (k' & x & ->).
      change (o ++ (d :: k') ++ [x] = o2 ++ [d2]) in Hlast.
      rewrite app_assoc in Hlast. apply app_inj_tail in Hlast as [_ ->].
      rewrite systemMessages_app, (systemMessages_cons_chat d2 []) in Hout
        by done.
      apply (f_equal length) in Hout. rewrite !length_app in Hout.
      simpl in Hout. specialize (Hshort k'). lia.
Qed.

(** X10. Turns older than the dropped one do not matter: with the encoder
    at hand, if on [o ++ d :: newer] the function drops the non-system
    message [d] and keeps [newer] whole, then replacing [o] by any messages
    with the same system messages gives the same run: the same output and
    the same calls of the tokenizer. *)
Theorem older_turns_do_not_matter `{Tk : Tokenizer} `{Ser : Serializer Tool}
    (model : string) (enc : Tiktoken) (o o' newer : list Message)
    (d : Message) (tools : list Tool) (maxTokensArg : option Z) (tr : Trace) :
  resolveEncoding model = Some enc →
  is_system d = false →
  systemMessages o' = systemMessages o →
  run (limitMessagesToTokenCount (o ++ d :: newer) tools model maxTokensArg)
    = (inr (systemMessages o ++ newer), tr) →
  run (limitMessagesToTokenCount (o' ++ d :: newer) tools model maxTokensArg)
    = (inr (systemMessages o ++ newer), tr).
Proof.
  intros Hres Hd Hsame Hrun. rewrite limitMessagesToTokenCount_run in Hrun.
  destruct (run (limitMessagesToTokenCount_locals (o ++ _) _ _ _))
    as [[e|st] tr0] eqn:Hlocals; [done|].
  injection Hrun as Hout ->.
  destruct (locals_returns_passes model enc Hres _ tools maxTokensArg st tr
              Hlocals) as [Htools Hsys].
  destruct (locals_dropped_at model enc o newer d tools maxTokensArg st tr
              Hres Hd Hlocals Hout) as [Hfit Hlt].
  assert (systemMessages (o' ++ d :: newer) = systemMessages (o ++ d :: newer))
    as Hsys' by (by rewrite !systemMessages_app, Hsame).
  assert (∀ l, l ++ d :: newer = (l ++ [d]) ++ newer) as Hsnoc
    by (intros l; by rewrite <- app_assoc).
  pose proof (locals_stops_at model enc Hres (o ++ [d]) newer tools
                maxTokensArg) as Hold.
  pose proof (locals_stops_at model enc Hres (o' ++ [d]) newer tools
                maxTokensArg) as Hnew.
  rewrite <- Hsnoc in Hold, Hnew. rewrite Hsys' in Hnew. simpl in Hold, Hnew.
  rewrite Hold in Hlocals;
    [|done|done|done|right; exists o, d; split_and!; [done|done|exact Hlt]].
  rewrite limitMessagesToTokenCount_run, Hnew;
    [|done|done|done|right; exists o', d; split_and!; [done|done|exact Hlt]].
  injection Hlocals as _ <-. simpl.
  rewrite !systemMessages_app, Hsame, !reverse_app.
  rewrite (systemMessages_cons_chat d []) by done.
  by rewrite app_nil_r.
Qed.

Lemma older_turns_do_not_matter_witness :
  run (limitMessagesToTokenCount (Tk := demoTokenizer) (Ser := demoSerializer)
         ([msgS] ++ msgB :: [msgC]) [] "gpt-4" (Some 12))
  = (inr (systemMessages [msgS; msgA] ++ [msgC]), callsAt12).
Proof.
  apply (older_turns_do_not_matter (Tk := demoTokenizer)
           (Ser := demoSerializer) "gpt-4" chars [msgS; msgA] [msgS] [msgC]
           msgB [] (Some 12) callsAt12).
  - reflexivity.
  - reflexivity.
  - reflexivity.
  - vm_compute. reflexivity.
Defined.

(** ** Lemmas on the entry points *)

Section EntryPointLemmas.
Context {Forwarded Implementation Parsed Value : Type}.
Context {Parser : ArgumentsParser Parsed Value}.
Implicit Types (f ep : AnnotatedFunction Forwarded Implementation).
Implicit Types (eps : list (AnnotatedFunction Forwarded Implementation)).

(** A map filled by successive assignments holds, under a key, what the
    last element with that key gave. *)
Lemma foldl_insert_lookup {A V} (key : A → string) (val : A → V)
    (l : list A) (m0 : gmap string V) (n : string) :
  foldl (λ m x, <[key x := val x]> m) m0 l !! n =
  match last (filter (λ x, key x = n) l) with
  | Some x => Some (val x)
  | None => m0 !! n
  end.
Proof.
  induction l as [|x l IH] using rev_ind; [done|].
  rewrite foldl_snoc, filter_app. destruct (decide (key x = n)) as [Hx|Hx].
  - rewrite Hx, lookup_insert_eq.
    rewrite (filter_cons_True (λ y, key y = n)) by done.
    by rewrite filter_nil, last_snoc.
  - rewrite lookup_insert_ne by done.
    rewrite (filter_cons_False (λ y, key y = n)) by done.
    by rewrite filter_nil, app_nil_r.
Qed.

Lemma foldl_push_required (args : list (AnnotatedFunctionArgument Forwarded))
    (names : list string) :
  foldl (λ names arg,
           if arg_required arg then names ++ [arg_name arg] else names)
    names args
  = names ++ (arg_name <$> filter (λ arg, arg_required arg = true) args).
Proof.
  revert names. induction args as [|arg args IH]; intros names; simpl.
  - by rewrite app_nil_r.
  - rewrite IH. destruct (arg_required arg) eqn:Hreq.
    + rewrite filter_cons_True by done. by rewrite <- app_assoc.
    + rewrite filter_cons_False; [done|]. by rewrite Hreq.
Qed.

(** The [parameters] object after the first loop: its own properties and
    its prototype. *)
Lemma parameters_fold (args : list (AnnotatedFunctionArgument Forwarded))
    (m0 : gmap string Forwarded) (p0 : option Forwarded) (n : string) :
  let parameters :=
    foldl (λ parameters arg,
             if String.eqb (arg_name arg) "__proto__"
             then (parameters.1, Some (arg_forwardedArgs arg))
             else (<[arg_name arg := arg_forwardedArgs arg]> parameters.1,
                   parameters.2))
      (m0, p0) args in
  parameters.1 !! n
  = (if bool_decide (n = "__proto__") then m0 !! n
     else match last (filter (λ arg, arg_name arg = n) args) with
          | Some arg => Some (arg_forwardedArgs arg)
          | None => m0 !! n
          end) ∧
  parameters.2
  = match last (filter (λ arg, arg_name arg = "__proto__") args) with
    | Some arg => Some (arg_forwardedArgs arg)
    | None => p0
    end.
Proof.
  induction args as [|x args [IH1 IH2]] using rev_ind.
  { simpl. by destruct (bool_decide _). }
  simpl. rewrite foldl_snoc, !filter_app.
  destruct (String.eqb (arg_name x) "__proto__") eqn:Hx; simpl.
  - apply String.eqb_eq in Hx.
    rewrite (filter_cons_True (λ arg, arg_name arg = "__proto__")) by done.
    rewrite filter_nil, last_snoc. split; [|done].
    rewrite IH1. destruct (bool_decide (n = "__proto__")) eqn:Hn; [done|].
    apply bool_decide_eq_false in Hn.
    rewrite (filter_cons_False (λ arg, arg_name arg = n)) by congruence.
    by rewrite filter_nil, app_nil_r.
  - apply String.eqb_neq in Hx.
    rewrite (filter_cons_False (λ arg, arg_name arg = "__proto__")) by done.
    rewrite filter_nil, app_nil_r. split; [|done].
    destruct (bool_decide (n = "__proto__")) eqn:Hn.
    + apply bool_decide_eq_true in Hn. subst n.
      rewrite lookup_insert_ne by done. by rewrite IH1.
    + destruct (decide (arg_name x = n)) as [Heq|Hne].
      * rewrite Heq, lookup_insert_eq.
        rewrite (filter_cons_True (λ arg, arg_name arg = n)) by done.
        by rewrite filter_nil, last_snoc.
      * rewrite lookup_insert_ne by done.
        rewrite (filter_cons_False (λ arg, arg_name arg = n)) by done.
        by rewrite filter_nil, app_nil_r, IH1.
Qed.

Lemma filter_none {A} (P : A → Prop) `{!∀ x, Decision (P x)} (l : list A) :
  (∀ x, x ∈ l → ¬ P x) → filter P l = [].
Proof.
  induction l as [|x l IH]; [done|]. intros Hl.
  rewrite filter_cons_False by (apply Hl; left).
  apply IH. intros y Hy. apply Hl. by right.
Qed.

Lemma last_filter_is_Some {A} (P : A → Prop) `{!∀ x, Decision (P x)}
    (l : list A) :
  is_Some (last (filter P l)) ↔ ∃ x, x ∈ l ∧ P x.
Proof.
  rewrite last_is_Some. split.
  - intros Hne. destruct (filter P l) as [|x k] eqn:Hf; [done|].
    assert (x ∈ filter P l) as Hx by (rewrite Hf; left).
    apply list_elem_of_filter in Hx as [HP Hx]. by exists x.
  - intros (x & Hx & HP) Hnil.
    by apply (filter_nil_not_elem_of P l x).
Qed.

(** The index that the handler builds, read at a name. *)
Lemma entrypointsByFunctionName_lookup eps (n : string) :
  foldl (λ byName entryPoint, <[fn_name entryPoint := entryPoint]> byName)
    (∅ : gmap string (AnnotatedFunction Forwarded Implementation)) eps !! n
  = last (filter (λ ep, fn_name ep = n) eps).
Proof.
  rewrite (foldl_insert_lookup fn_name id).
  by destruct (last _).
Qed.

(** With names that are pairwise different, the last entry point with the
    name of [ep] is [ep]. *)
Lemma last_of_distinct_names eps ep :
  NoDup (fn_name <$> eps) → ep ∈ eps →
  last (filter (λ x, fn_name x = fn_name ep) eps) = Some ep.
Proof.
  intros Hnodup Hin. apply list_elem_of_split in Hin as (l1 & l2 & ->).
  rewrite fmap_app, fmap_cons in Hnodup.
  apply NoDup_app in Hnodup as (_ & _ & Hnodup).
  apply NoDup_cons in Hnodup as [Hnotin _].
  rewrite filter_app, filter_cons_True by done.
  rewrite (filter_none _ l2).
  - by rewrite last_snoc.
  - intros x Hx Heq. apply Hnotin. rewrite <- Heq.
    by apply list_elem_of_fmap_2.
Qed.

End EntryPointLemmas.

(** ** Properties of the entry points *)

(** X11. The schema of a tool: [required] lists the names of the
    annotations whose [required] flag is set, in the order of the
    annotations; every name it lists is an own key of [properties], except
    ["__proto__"], which is never one. *)
Theorem required_names_are_properties {Forwarded Implementation : Type}
    (annotatedFunction : AnnotatedFunction Forwarded Implementation) :
  let schema :=
    ccf_parameters (annotatedFunctionToChatCompletionFunction annotatedFunction)
  in
  required schema
  = (arg_name <$> filter (λ arg, arg_required arg = true)
                    (argumentAnnotations annotatedFunction)) ∧
  (∀ name, name ∈ required schema → name ≠ "__proto__" →
     is_Some (properties schema !! name)) ∧
  properties schema !! "__proto__" = None.
Proof.
  simpl. rewrite foldl_push_required. simpl. split_and!; [done| |].
  - intros name Hin Hname. apply list_elem_of_fmap in Hin as (arg & -> & Hin).
    apply list_elem_of_filter in Hin as [_ Hin].
    destruct (parameters_fold (argumentAnnotations annotatedFunction) ∅ None
                (arg_name arg)) as [-> _].
    rewrite bool_decide_eq_false_2 by done.
    assert (is_Some (last (filter (λ x, arg_name x = arg_name arg)
                             (argumentAnnotations annotatedFunction))))
      as [a Ha].
    { apply last_filter_is_Some. by exists arg. }
    rewrite Ha. by eexists.
  - destruct (parameters_fold (argumentAnnotations annotatedFunction) ∅ None
                "__proto__") as [-> _].
    by rewrite bool_decide_eq_true_2.
Qed.

Lemma required_names_are_properties_witness :
  required (ccf_parameters (annotatedFunctionToChatCompletionFunction
                              (demoEntryPoint "weather" 0))) = ["city"] ∧
  is_Some (properties
             (ccf_parameters (annotatedFunctionToChatCompletionFunction
                                (demoEntryPoint "weather" 0))) !! "city").
Proof.
  destruct (required_names_are_properties (demoEntryPoint "weather" 0))
    as (Hreq & Hin & _).
  split; [exact Hreq|]. apply Hin; [|discriminate].
  rewrite Hreq. vm_compute. left.
Defined.

(** X12. An own key of [properties] other than ["__proto__"] holds what the
    last annotation of that name forwards: annotations that share a name
    collapse into one property, the last one.  An annotation named
    ["__proto__"] adds no key: what it forwards becomes the prototype of
    [properties].  So a name is an own key exactly when it is not
    ["__proto__"] and some annotation has it. *)
Theorem properties_hold_last_annotation {Forwarded Implementation : Type}
    (annotatedFunction : AnnotatedFunction Forwarded Implementation)
    (name : string) :
  let schema :=
    ccf_parameters (annotatedFunctionToChatCompletionFunction annotatedFunction)
  in
  (name ≠ "__proto__" →
     properties schema !! name
     = (arg_forwardedArgs <$>
          last (filter (λ arg, arg_name arg = name)
                  (argumentAnnotations annotatedFunction)))) ∧
  properties schema !! "__proto__" = None ∧
  propertiesPrototype schema
  = (arg_forwardedArgs <$>
       last (filter (λ arg, arg_name arg = "__proto__")
               (argumentAnnotations annotatedFunction))) ∧
  (is_Some (properties schema !! name)
   ↔ name ≠ "__proto__" ∧
     name ∈ (arg_name <$> argumentAnnotations annotatedFunction)).
Proof.
  simpl.
  destruct (parameters_fold (argumentAnnotations annotatedFunction) ∅ None
              name) as [Hown Hproto].
  destruct (parameters_fold (argumentAnnotations annotatedFunction) ∅ None
              "__proto__") as [Hnone _].
  rewrite bool_decide_eq_true_2 in Hnone by done.
  simpl in Hown, Hproto, Hnone. rewrite Hown, Hproto, Hnone.
  split_and!; [|done|by destruct (last _)|].
  - intros Hname. rewrite bool_decide_eq_false_2 by done.
    rewrite lookup_empty. by destruct (last _).
  - rewrite lookup_empty, list_elem_of_fmap.
    destruct (bool_decide (name = "__proto__")) eqn:Hname.
    { apply bool_decide_eq_true in Hname. split; [by intros [? ?]|].
      by intros [? _]. }
    apply bool_decide_eq_false in Hname.
    pose proof (last_filter_is_Some (λ arg, arg_name arg = name)
                  (argumentAnnotations annotatedFunction)) as Hlast.
    destruct (last _) as [a|].
    + split; [|by eauto]. intros _. split; [done|].
      destruct (proj1 Hlast) as (x & Hx & Hxname); [by eauto|]. by exists x.
    + split; [by intros [? ?]|].
      intros (_ & x & Hxname & Hx).
      destruct (proj2 Hlast) as [? ?]; [by exists x|done].
Qed.

Lemma properties_hold_last_annotation_witness :
  properties
    (ccf_parameters (annotatedFunctionToChatCompletionFunction
       (mkAnnotatedFunction "f" "d"
          [mkArgument "city" true "a"; mkArgument "__proto__" true "b";
           mkArgument "city" false "c"] 0))) !! "city" = Some "c".
Proof.
  destruct (properties_hold_last_annotation
              (mkAnnotatedFunction "f" "d"
                 [mkArgument "city" true "a"; mkArgument "__proto__" true "b";
                  mkArgument "city" false "c"] 0) "city") as [Hlast _].
  rewrite Hlast; [reflexivity|discriminate].
Defined.

(** X13. With no entry point named ["__proto__"]: the handler does nothing
    exactly when no entry point has the name of the call ([""] when the
    call has no name) and that name is not the name of a member of
    [Object.prototype]; the arguments are not parsed then, so malformed
    arguments cannot throw.  Under the name of such a member that no entry
    point has, the handler throws. *)
Theorem unknown_name_is_not_handled
    {Forwarded Implementation Parsed Value ChatMessage : Type}
    {Parser : ArgumentsParser Parsed Value}
    (entryPoints : list (AnnotatedFunction Forwarded Implementation))
    (chatMessages : list ChatMessage) (functionCall : FunctionCall) :
  "__proto__" ∉ (fn_name <$> entryPoints) →
  let name := name_or_empty (call_name functionCall) in
  (entryPointsToFunctionCallHandler (Value := Value) entryPoints chatMessages
     functionCall = NotHandled
   ↔ (name ∉ (fn_name <$> entryPoints)) ∧ (name ∉ objectPrototypeMembers)) ∧
  (name ∉ (fn_name <$> entryPoints) → name ∈ objectPrototypeMembers →
   entryPointsToFunctionCallHandler (Value := Value) entryPoints chatMessages
     functionCall = Threw).
Proof.
  intros _ name. unfold entryPointsToFunctionCallHandler. fold name.
  rewrite entrypointsByFunctionName_lookup.
  pose proof (last_filter_is_Some
                (λ ep : AnnotatedFunction Forwarded Implementation,
                   fn_name ep = name) entryPoints) as Hlast.
  rewrite list_elem_of_fmap.
  destruct (last _) as [f|].
  - assert (∃ y, name = fn_name y ∧ y ∈ entryPoints) as Hin.
    { destruct (proj1 Hlast) as (x & Hx & Hname); [by eauto|]. by exists x. }
    split; [|by intros Hnot].
    split; [|by intros [Hnot _]].
    intros Hout. exfalso.
    destruct (call_arguments functionCall) as [s|];
      [destruct (String.eqb s ""); [|destruct (JSON_parse s)]|];
      try done; by destruct (mapM _ _).
  - assert (¬ ∃ y, name = fn_name y ∧ y ∈ entryPoints) as Hnot.
    { intros (x & Hname & Hx).
      destruct (proj2 Hlast) as [? ?]; [by exists x|done]. }
    destruct (bool_decide (name ∈ objectPrototypeMembers)) eqn:Hmember.
    + apply bool_decide_eq_true in Hmember.
      split; [|done]. split; [done|]. by intros [_ ?].
    + apply bool_decide_eq_false in Hmember. split; [|done]. done.
Qed.

Lemma unknown_name_is_not_handled_witness :
  entryPointsToFunctionCallHandler (Parser := demoParser)
    (ChatMessage := Message)
    [demoEntryPoint "weather" 1; demoEntryPoint "time" 0] []
    (mkFunctionCall (Some "news") (Some "!")) = NotHandled ∧
  entryPointsToFunctionCallHandler (Parser := demoParser)
    (ChatMessage := Message)
    [demoEntryPoint "weather" 1; demoEntryPoint "time" 0] []
    (mkFunctionCall (Some "toString") None) = Threw.
Proof.
  assert ("__proto__" ∉ (fn_name <$> [demoEntryPoint "weather" 1;
                                      demoEntryPoint "time" 0])) as Hproto
    by (apply (bool_decide_unpack _); vm_compute; exact I).
  split.
  - destruct (unknown_name_is_not_handled (Parser := demoParser)
                (ChatMessage := Message) _ []
                (mkFunctionCall (Some "news") (Some "!")) Hproto)
      as [[_ Hskip] _].
    apply Hskip.
    split; apply (bool_decide_unpack _); vm_compute; exact I.
  - destruct (unknown_name_is_not_handled (Parser := demoParser)
                (ChatMessage := Message) _ []
                (mkFunctionCall (Some "toString") None) Hproto)
      as [_ Hthrows].
    apply Hthrows; apply (bool_decide_unpack _); vm_compute; exact I.
Defined.

(** X14. The handler dispatches by name to the last entry point of that
    name, and passes one parameter per annotation, in the order of the
    annotations and not of the arguments: the value read under the name of
    each annotation from the parsed arguments, which are the empty array
    when the call has no arguments or empty ones. *)
Theorem handler_invokes_last_of_name
    {Forwarded Implementation Parsed Value ChatMessage : Type}
    {Parser : ArgumentsParser Parsed Value}
    (entryPoints : list (AnnotatedFunction Forwarded Implementation))
    (chatMessages : list ChatMessage) (functionCall : FunctionCall)
    (f : AnnotatedFunction Forwarded Implementation) (params : list Value) :
  entryPointsToFunctionCallHandler entryPoints chatMessages functionCall
    = Invoked f params →
  fn_name f = name_or_empty (call_name functionCall) ∧
  (∃ before after, entryPoints = before ++ f :: after ∧
     Forall (λ ep, fn_name ep ≠ fn_name f) after) ∧
  length params = length (argumentAnnotations f) ∧
  ∃ parsed,
    match call_arguments functionCall with
    | None | Some "" => parsed = emptyArguments
    | Some arguments => JSON_parse arguments = Some parsed
    end ∧
    Forall2 (λ arg value, getProperty parsed (arg_name arg) = Some value)
      (argumentAnnotations f) params.
Proof.
  unfold entryPointsToFunctionCallHandler.
  rewrite entrypointsByFunctionName_lookup.
  destruct (last _) as [g|] eqn:Hlast; [|by destruct (bool_decide _)].
  assert (∀ parsed,
            match mapM (λ arg, getProperty parsed (arg_name arg))
                    (argumentAnnotations g) with
            | Some ps => Invoked g ps
            | None => Threw
            end = Invoked f params →
            g = f ∧
            Forall2 (λ arg value, getProperty parsed (arg_name arg) = Some value)
              (argumentAnnotations f) params) as Hparams.
  { intros parsed Hout.
    destruct (mapM _ _) as [ps|] eqn:Hmap; [|done].
    injection Hout as -> ->. split; [done|]. by apply mapM_Some. }
  intros Hout.
  assert (∃ parsed,
            match call_arguments functionCall with
            | None | Some "" => parsed = emptyArguments
            | Some arguments => JSON_parse arguments = Some parsed
            end ∧ g = f ∧
            Forall2 (λ arg value, getProperty parsed (arg_name arg) = Some value)
              (argumentAnnotations f) params) as (parsed & Hparsed & -> & Hall).
  { destruct (call_arguments functionCall) as [s|].
    - destruct (String.eqb s "") eqn:Hs.
      + apply String.eqb_eq in Hs as ->. exists emptyArguments.
        split; [done|]. by apply Hparams.
      + apply String.eqb_neq in Hs.
        destruct (JSON_parse s) as [parsed|] eqn:Hparse; [|done].
        exists parsed. split; [|by apply Hparams]. by destruct s.
    - exists emptyArguments. split; [done|]. by apply Hparams. }
  assert (f ∈ filter (λ ep : AnnotatedFunction Forwarded Implementation,
                        fn_name ep = name_or_empty (call_name functionCall))
                entryPoints) as Hin.
  { apply last_Some in Hlast as [l' ->]. apply elem_of_app. right. left. }
  apply list_elem_of_filter in Hin as [Hname _].
  split_and!.
  - done.
  - apply last_filter_Some in Hlast as (before & after & -> & Hafter).
    exists before, after. split; [done|]. by rewrite Hname.
  - symmetry. by eapply Forall2_length.
  - by exists parsed.
Qed.

Lemma handler_invokes_last_of_name_witness :
  fn_name (demoEntryPoint "weather" 2) = "weather" ∧
  length [true; false] = length (argumentAnnotations (demoEntryPoint "weather" 2)).
Proof.
  destruct (handler_invokes_last_of_name (Parser := demoParser)
              (ChatMessage := Message)
              [demoEntryPoint "weather" 1; demoEntryPoint "time" 0;
               demoEntryPoint "weather" 2]
              [] (mkFunctionCall (Some "weather") (Some "city"))
              (demoEntryPoint "weather" 2) [true; false])
    as (Hname & _ & Hlen & _).
  - vm_compute. reflexivity.
  - split; [exact Hname|exact Hlen].
Defined.

(** X15. From a description back to its entry point: the descriptions list
    the names of the entry points in order, and when those names are
    pairwise different a call under the name of an entry point's
    description is handled, and the only entry point it can invoke is that
    one. *)
Theorem description_name_reaches_entry_point
    {Forwarded Implementation Parsed Value ChatMessage : Type}
    {Parser : ArgumentsParser Parsed Value}
    (entryPoints : list (AnnotatedFunction Forwarded Implementation))
    (chatMessages : list ChatMessage) :
  (ccf_name <$> entryPointsToChatCompletionFunctions entryPoints)
    = (fn_name <$> entryPoints) ∧
  (NoDup (fn_name <$> entryPoints) →
   ∀ ep functionCall,
     ep ∈ entryPoints →
     call_name functionCall
       = Some (ccf_name (annotatedFunctionToChatCompletionFunction ep)) →
     entryPointsToFunctionCallHandler (Value := Value) entryPoints
       chatMessages functionCall ≠ NotHandled ∧
     ∀ f params,
       entryPointsToFunctionCallHandler entryPoints chatMessages functionCall
         = Invoked f params →
       f = ep).
Proof.
  split.
  - unfold entryPointsToChatCompletionFunctions.
    rewrite <- list_fmap_compose. done.
  - intros Hnodup ep functionCall Hin Hname.
    unfold entryPointsToFunctionCallHandler.
    rewrite entrypointsByFunctionName_lookup, Hname. simpl.
    rewrite (last_of_distinct_names entryPoints ep) by done.
    assert (∀ parsedOpt : option Parsed,
              let outcome :=
                match parsedOpt with
                | Some parsed =>
                    match mapM (λ arg, getProperty parsed (arg_name arg))
                            (argumentAnnotations ep) with
                    | Some ps => Invoked ep ps
                    | None => Threw
                    end
                | None => Threw
                end in
              outcome ≠ NotHandled ∧
              ∀ f (params : list Value), outcome = Invoked f params → f = ep)
      as Hany.
    { intros [parsed|]; simpl; [|done].
      destruct (mapM _ _); [|done]. split; [done|]. by intros f params [= <- _]. }
    apply Hany.
Qed.

Lemma description_name_reaches_entry_point_witness :
  entryPointsToFunctionCallHandler (Parser := demoParser)
    (ChatMessage := Message)
    [demoEntryPoint "weather" 1; demoEntryPoint "time" 0] []
    (mkFunctionCall (Some "time") None) ≠ NotHandled.
Proof.
  destruct (description_name_reaches_entry_point (Parser := demoParser)
              (ChatMessage := Message)
              [demoEntryPoint "weather" 1; demoEntryPoint "time" 0] [])
    as [_ Hreach].
  assert (NoDup (fn_name <$> [demoEntryPoint "weather" 1;
                              demoEntryPoint "time" 0])) as Hnodup
    by (apply (bool_decide_unpack _); vm_compute; exact I).
  destruct (Hreach Hnodup (demoEntryPoint "time" 0)
              (mkFunctionCall (Some "time") None)) as [Hhandled _].
  - right. left.
  - reflexivity.
  - exact Hhandled.
Defined.

(** X16. When the handler throws before it calls an implementation, with
    no entry point named ["__proto__"]: exactly when an entry point has the
    name of the call and either the arguments are not empty and
    [JSON.parse] rejects them, or the parsed arguments (the empty array when
    there are none) do not let the name of one of its annotations be read;
    or when no entry point has the name and it is the name of a member of
    [Object.prototype]. *)
Theorem handler_throws_iff
    {Forwarded Implementation Parsed Value ChatMessage : Type}
    {Parser : ArgumentsParser Parsed Value}
    (entryPoints : list (AnnotatedFunction Forwarded Implementation))
    (chatMessages : list ChatMessage) (functionCall : FunctionCall) :
  "__proto__" ∉ (fn_name <$> entryPoints) →
  let name := name_or_empty (call_name functionCall) in
  let parsedArguments :=
    match call_arguments functionCall with
    | None | Some "" => Some emptyArguments
    | Some arguments => JSON_parse arguments
    end in
  entryPointsToFunctionCallHandler (Value := Value) entryPoints chatMessages
    functionCall = Threw
  ↔ (∃ g, last (filter (λ ep, fn_name ep = name) entryPoints) = Some g ∧
       (parsedArguments = None ∨
        ∃ parsed, parsedArguments = Some parsed ∧
          Exists (λ arg, getProperty parsed (arg_name arg) = None)
            (argumentAnnotations g))) ∨
    ((name ∉ (fn_name <$> entryPoints)) ∧ (name ∈ objectPrototypeMembers)).
Proof.
  intros _ name parsedArguments.
  unfold entryPointsToFunctionCallHandler. fold name.
  rewrite entrypointsByFunctionName_lookup.
  assert (match call_arguments functionCall with
          | Some arguments =>
              if String.eqb arguments "" then Some emptyArguments
              else JSON_parse arguments
          | None => Some emptyArguments
          end = parsedArguments) as ->.
  { unfold parsedArguments. destruct (call_arguments functionCall) as [s|];
      [|done].
    destruct (String.eqb s "") eqn:Hs.
    - by apply String.eqb_eq in Hs as ->.
    - apply String.eqb_neq in Hs. by destruct s. }
  pose proof (last_filter_is_Some
                (λ ep : AnnotatedFunction Forwarded Implementation,
                   fn_name ep = name) entryPoints) as Hlast.
  rewrite list_elem_of_fmap.
  destruct (last _) as [g|].
  - assert (∃ y, name = fn_name y ∧ y ∈ entryPoints) as Hin.
    { destruct (proj1 Hlast) as (x & Hx & Hname); [by eauto|]. by exists x. }
    destruct parsedArguments as [parsed|].
    + destruct (mapM _ _) as [ps|] eqn:Hmap.
      * split; [done|].
        intros [(g' & [= <-] & [?|(p & [= <-] & Hex)])|[Hnot _]];
          [done| |done].
        apply mapM_None in Hex. congruence.
      * split; [|done]. intros _. left. exists g. split; [done|]. right.
        exists parsed. split; [done|]. by apply mapM_None.
    + split; [|done]. intros _. left. exists g. split; [done|]. by left.
  - assert (¬ ∃ y, name = fn_name y ∧ y ∈ entryPoints) as Hnot.
    { intros (x & Hname & Hx).
      destruct (proj2 Hlast) as [? ?]; [by exists x|done]. }
    destruct (bool_decide (name ∈ objectPrototypeMembers)) eqn:Hmember.
    + apply bool_decide_eq_true in Hmember. split; [|done].
      intros _. by right.
    + apply bool_decide_eq_false in Hmember. split; [done|].
      intros [(? & ? & _)|[_ ?]]; done.
Qed.

Lemma handler_throws_iff_witness :
  entryPointsToFunctionCallHandler (Parser := demoParser)
    (ChatMessage := Message)
    [demoEntryPoint "weather" 1; demoEntryPoint "time" 0] []
    (mkFunctionCall (Some "time") (Some "!")) = Threw.
Proof.
  assert ("__proto__" ∉ (fn_name <$> [demoEntryPoint "weather" 1;
                                      demoEntryPoint "time" 0])) as Hproto
    by (apply (bool_decide_unpack _); vm_compute; exact I).
  apply (handler_throws_iff (Parser := demoParser) (ChatMessage := Message)
           _ [] (mkFunctionCall (Some "time") (Some "!")) Hproto).
  left. exists (demoEntryPoint "time" 0). split; [reflexivity|]. by left.
Defined.
